(** * Value-producing operations of the elvish evaluator (eval/compile_value.go)

    A shallow embedding of the operations that turn compound expressions
    into sequences of values: [cat], [outerProduct], [doTilde],
    [compoundOp.Invoke], [indexingOp.Invoke], [seqValuesOp.Invoke],
    [listOp.Invoke], the capture operations with their two drains,
    [lambdaOp.Invoke], [mapPairsOp.Invoke] and the compilation of map
    literals, followed by the properties established for them. *)

From Stdlib Require Import ZArith Ascii String List.
From stdpp Require Import base decidable option list strings gmap pretty.

Local Open Scope string_scope.
Local Open Scope list_scope.
Local Open Scope nat_scope.
Local Set Warnings "-register-all".

(** ** Errors and results *)

(** A Go [error] value.  [ErrorString] stands for [errors.New] and
    [fmt.Errorf]; [DiagError] for the diagnostic raised by [Frame.errorpf],
    which carries a source span; [ExceptionErr] for an [*Exception] used as
    an error, with its cause. *)
Inductive GoError : Type :=
  | ErrorString (msg : string)
  | DiagError (begin_ end_ : Z) (msg : string)
  | ExceptionErr (cause : option GoError).

Fixpoint GoError_eqb (a b : GoError) : bool :=
  match a, b with
  | ErrorString m, ErrorString n => bool_decide (m = n)
  | DiagError b1 e1 m, DiagError b2 e2 n =>
      bool_decide (b1 = b2) && bool_decide (e1 = e2) && bool_decide (m = n)
  | ExceptionErr None, ExceptionErr None => true
  | ExceptionErr (Some c), ExceptionErr (Some d) => GoError_eqb c d
  | _, _ => false
  end.

(** What a Go panic carries: [Thrown e] is [throw(e)] (package util), the
    panic that protected evaluation recovers; [RuntimePanic] is a panic of
    the Go runtime itself (index out of range). *)
Inductive PanicValue : Type :=
  | Thrown (e : GoError)
  | RuntimePanic (msg : string).

(** The three ways a Go call that returns [(T, error)] can end. *)
Inductive result (A : Type) : Type :=
  | Ok (a : A)
  | Fail (e : GoError)
  | Panic (p : PanicValue).
Arguments Ok {A} a.
Arguments Fail {A} e.
Arguments Panic {A} p.

Definition throw {A : Type} (e : GoError) : result A := Panic (Thrown e).

Definition index_out_of_range {A : Type} : result A :=
  Panic (RuntimePanic "index out of range").

Definition rbind {A B : Type} (r : result A) (k : A → result B) : result B :=
  match r with
  | Ok a => k a
  | Fail e => Fail e
  | Panic p => Panic p
  end.

(** ** Glob patterns (package glob) *)

Module glob.

(** Modelled from the spec: the segments of package glob (absent):
    literal text, a path-separator placeholder, or a wildcard (of which
    only its kind and hidden-file flag are kept). *)
Inductive Segment : Type :=
  | Literal (Data : string)
  | Slash
  | Wild (Type_ : Z) (MatchHidden : bool).

Global Instance Segment_eq_dec : EqDecision Segment.
Proof. solve_decision. Defined.

(** Modelled from the spec: [glob.Pattern] (absent): an ordered sequence
    of segments and a directory override, empty when there is none. *)
Record Pattern : Type := mkPattern {
  Segments : list Segment;
  DirOverride : string
}.

Global Instance Pattern_eq_dec : EqDecision Pattern.
Proof. solve_decision. Defined.

End glob.

(** Modelled from the spec: [GlobPattern] (eval/glob.go is absent): a
    [glob.Pattern], embedded, with the set of flags, kept as the bits of
    an integer, and the exclusions. *)
Record GlobPattern : Type := mkGlobPattern {
  Pattern : glob.Pattern;
  Flags : Z;
  Buts : list string
}.

Global Instance GlobPattern_eq_dec : EqDecision GlobPattern.
Proof. solve_decision. Defined.

Definition Segments (gp : GlobPattern) : list glob.Segment :=
  glob.Segments (Pattern gp).

(** ** Values (package types) *)

(** Modelled from the spec: [Closure] (absent): argument names, rest
    argument name, option names with their default values, the compiled
    body, the captured namespace and the source.  A variable cell is
    named by its address; the compiled body and the source are named by
    handles, as a closure only carries them. *)
Definition Var : Type := nat.
Definition OpHandle : Type := nat.
Definition SourceHandle : Type := nat.

Record ClosureOf (V : Type) : Type := mkClosure {
  ArgNames : list string;
  RestArg : string;
  OptNames : list string;
  OptDefaults : list V;
  Op_ : OpHandle;
  Captured : gmap string (option Var);
  SrcMeta : SourceHandle
}.
Arguments mkClosure {V}.
Arguments ArgNames {V}.
Arguments RestArg {V}.
Arguments OptNames {V}.
Arguments OptDefaults {V}.
Arguments Op_ {V}.
Arguments Captured {V}.
Arguments SrcMeta {V}.

(** Modelled from the spec: [Exception] (absent): an exception value
    wraps the failure that caused it; the [OK] sentinel is the exception
    without a cause. *)
Record Exception : Type := mkException { Cause : option GoError }.

Definition Exception_eqb (e f : Exception) : bool :=
  GoError_eqb (ExceptionErr (Cause e)) (ExceptionErr (Cause f)).

Module types.

(** Modelled from the spec: the values (package types is absent): a
    tagged union of text string, boolean, list, map, glob pattern,
    closure and exception. *)
Inductive Value : Type :=
  | String (s : string)
  | Bool (b : bool)
  | List (vs : list Value)
  | Map (m : list (Value * Value))
  | Glob (gp : GlobPattern)
  | Fn (c : ClosureOf Value)
  | Exc (e : Exception).

End types.
Export types(Value).

Definition Closure : Type := ClosureOf Value.

Definition OK : Value := types.Exc (mkException None).

(** Modelled from the spec: the [Kind] method of the value types (package
    types and the value types of package eval are absent); one kind name
    per variant of the value union. *)
Definition Kind (v : Value) : string :=
  match v with
  | types.String _ => "string"
  | types.Bool _ => "bool"
  | types.List _ => "list"
  | types.Map _ => "map"
  | types.Glob _ => "glob-pattern"
  | types.Fn _ => "fn"
  | types.Exc _ => "exception"
  end.

(** *** Equality of values is decidable *)

Section Value_induction.
Variable P : Value → Prop.
Hypothesis HString : ∀ s, P (types.String s).
Hypothesis HBool : ∀ b, P (types.Bool b).
Hypothesis HList : ∀ vs, Forall P vs → P (types.List vs).
Hypothesis HMap :
  ∀ m, Forall (λ kv, P kv.1 ∧ P kv.2) m → P (types.Map m).
Hypothesis HGlob : ∀ gp, P (types.Glob gp).
Hypothesis HFn : ∀ c, Forall P (OptDefaults c) → P (types.Fn c).
Hypothesis HExc : ∀ e, P (types.Exc e).

Fixpoint Value_nested_ind (v : Value) : P v :=
  match v with
  | types.String s => HString s
  | types.Bool b => HBool b
  | types.List vs =>
      HList vs
        ((fix go (l : list Value) : Forall P l :=
            match l with
            | [] => Forall_nil_2 P
            | x :: l' => Forall_cons_2 P x l' (Value_nested_ind x) (go l')
            end) vs)
  | types.Map m =>
      HMap m
        ((fix go (l : list (Value * Value))
            : Forall (λ kv, P kv.1 ∧ P kv.2) l :=
            match l with
            | [] => Forall_nil_2 _
            | (k, x) :: l' =>
                Forall_cons_2 (λ kv, P kv.1 ∧ P kv.2) (k, x) l'
                  (conj (Value_nested_ind k) (Value_nested_ind x)) (go l')
            end) m)
  | types.Glob gp => HGlob gp
  | types.Fn c =>
      match c with
      | mkClosure a r o ds b cap src =>
          HFn (mkClosure a r o ds b cap src)
            ((fix go (l : list Value) : Forall P l :=
                match l with
                | [] => Forall_nil_2 P
                | x :: l' =>
                    Forall_cons_2 P x l' (Value_nested_ind x) (go l')
                end) ds)
      end
  | types.Exc e => HExc e
  end.
End Value_induction.

Definition list_eqb {A : Type} (eqb : A → A → bool) : list A → list A → bool :=
  fix go (l1 l2 : list A) : bool :=
    match l1, l2 with
    | [], [] => true
    | x :: l1', y :: l2' => eqb x y && go l1' l2'
    | _, _ => false
    end.

Fixpoint Value_eqb (a b : Value) {struct a} : bool :=
  match a, b with
  | types.String s, types.String t => bool_decide (s = t)
  | types.Bool x, types.Bool y => bool_decide (x = y)
  | types.List vs, types.List ws => list_eqb Value_eqb vs ws
  | types.Map m, types.Map n =>
      list_eqb
        (λ kv kw,
           match kv, kw with
           | (k, v), (k', v') => Value_eqb k k' && Value_eqb v v'
           end) m n
  | types.Glob g, types.Glob h => bool_decide (g = h)
  | types.Fn c, types.Fn d =>
      match c, d with
      | mkClosure a1 r1 o1 ds1 b1 cap1 src1,
        mkClosure a2 r2 o2 ds2 b2 cap2 src2 =>
          bool_decide (a1 = a2) && bool_decide (r1 = r2)
          && bool_decide (o1 = o2) && list_eqb Value_eqb ds1 ds2
          && bool_decide (b1 = b2) && bool_decide (cap1 = cap2)
          && bool_decide (src1 = src2)
      end
  | types.Exc e, types.Exc f => Exception_eqb e f
  | _, _ => false
  end.

(** ** Strings (package strings) *)

(** [strings.Index(s, substr)]: the byte index of the first occurrence of
    [substr] in [s], or [-1]. *)
Fixpoint strings_Index_from (k : Z) (s substr : string) : Z :=
  if String.prefix substr s then k
  else match s with
       | EmptyString => (-1)%Z
       | String.String _ s' => strings_Index_from (k + 1)%Z s' substr
       end.

Definition strings_Index (s substr : string) : Z :=
  strings_Index_from 0%Z s substr.

(** The slice expressions [s[:n]] and [s[n:]] on a string. *)
Fixpoint slice_to (n : nat) (s : string) : string :=
  match n, s with
  | S n', String.String c s' => String.String c (slice_to n' s')
  | _, _ => EmptyString
  end.

Fixpoint slice_from (n : nat) (s : string) : string :=
  match n, s with
  | S n', String.String _ s' => slice_from n' s'
  | _, _ => s
  end.

(** [strings.HasSuffix] and [strings.TrimSuffix]. *)
Definition strings_HasSuffix (s suffix : string) : bool :=
  bool_decide (String.length suffix ≤ String.length s)%nat &&
  bool_decide (slice_from (String.length s - String.length suffix) s = suffix).

Definition strings_TrimSuffix (s suffix : string) : string :=
  if strings_HasSuffix s suffix
  then slice_to (String.length s - String.length suffix) s
  else s.

(** ** Frames and operations *)

(** Modelled from the spec: [Frame] (absent), in the part these
    operations touch: the span of the operation being executed, the
    resolution of variable names to cells, and the contents of the
    cells. *)
Record Frame : Type := mkFrame {
  begin_ : Z;
  end_ : Z;
  scope : string → string → option Var;
  store : gmap Var Value
}.

(** Modelled from the spec: [Frame.ResolveVar] (the frame is absent):
    resolve(namespace, name) gives the variable cell or nothing. *)
Definition ResolveVar (fm : Frame) (ns name : string) : option Var :=
  scope fm ns name.

(** A Go function that receives the [*Frame] and returns [(T, error)]:
    it yields a result and the frame as it left it. *)
Definition M (A : Type) : Type := Frame → result A * Frame.

Definition ret {A : Type} (a : A) : M A := λ fm, (Ok a, fm).

Definition bind {A B : Type} (m : M A) (k : A → M B) : M B :=
  λ fm,
    match m fm with
    | (Ok a, fm') => k a fm'
    | (Fail e, fm') => (Fail e, fm')
    | (Panic p, fm') => (Panic p, fm')
    end.

Definition lift {A : Type} (r : result A) : M A := λ fm, (r, fm).

Notation "'let*' x ':=' m 'in' k" := (bind m (λ x, k))
  (at level 10, x name, m at level 100, k at level 200, only parsing).

(** [ValuesOpBody] is the interface with the single method [Invoke];
    an implementation is given by that method. *)
Definition ValuesOpBody : Type := M (list Value).

Record ValuesOp : Type := mkValuesOp {
  Body : ValuesOpBody;
  Begin : Z;
  End_ : Z
}.

Definition ValuesOp_Exec (op : ValuesOp) : M (list Value) :=
  λ ec,
    Body op (mkFrame (Begin op) (End_ op) (scope ec) (store ec)).

(** Modelled from the spec: [Op] (absent), an operation run for its
    effect, returning only an [error]: it returns nil, returns an error,
    or throws. *)
Inductive OpOutcome : Type :=
  | Done
  | Failed (e : GoError)
  | Threw (e : GoError).

Definition Op : Type := Frame → OpOutcome * Frame.

(** ** The collaborators outside the package *)

(** [util.GetHome] (home directory of a user, the invoking user for the
    empty name), [path.Join] of two elements, and [doGlob], the expansion
    of a pattern against the file system. *)
Class Externals : Type := {
  GetHome : string → result string;
  path_Join : string → string → string;
  doGlob : GlobPattern → Frame → result (list Value)
}.

(** ** Concatenation *)

(** Modelled from the spec: [stringToSegments] (eval/glob.go is absent):
    the string becomes a literal segment. *)
Definition stringToSegments (s : string) : list glob.Segment :=
  [glob.Literal s].

(** Modelled from the spec: [GlobPattern.append] (eval/glob.go is absent):
    the segments are appended to a fresh copy of the pattern's segment
    sequence; directory override, flags and excludes are unchanged. *)
Definition GlobPattern_append (gp : GlobPattern) (segs : list glob.Segment)
  : GlobPattern :=
  mkGlobPattern
    (glob.mkPattern (Segments gp ++ segs) (glob.DirOverride (Pattern gp)))
    (Flags gp) (Buts gp).

Definition unsupported_concat (lhs rhs : Value) : GoError :=
  ErrorString ("unsupported concat: " ++ Kind lhs ++ " and " ++ Kind rhs).

Definition cat (lhs rhs : Value) : result Value :=
  match lhs with
  | types.String l =>
      match rhs with
      | types.String r => Ok (types.String (l ++ r))
      | types.Glob r =>
          let segs := stringToSegments l in
          match Segments r !! 0%nat with
          | Some seg0 =>
              Ok (types.Glob
                    (mkGlobPattern (glob.mkPattern (segs ++ [seg0]) "")
                       (Flags r) (Buts r)))
          | None => index_out_of_range
          end
      | _ => Fail (unsupported_concat lhs rhs)
      end
  | types.Glob l =>
      match rhs with
      | types.String r =>
          Ok (types.Glob (GlobPattern_append l (stringToSegments r)))
      | types.Glob r =>
          match Segments r !! 0%nat with
          | Some seg0 =>
              let l1 := GlobPattern_append l [seg0] in
              Ok (types.Glob
                    (mkGlobPattern (Pattern l1) (Z.lor (Flags l1) (Flags r))
                       (Buts l1 ++ Buts r)))
          | None => index_out_of_range
          end
      | _ => Fail (unsupported_concat lhs rhs)
      end
  | _ => Fail (unsupported_concat lhs rhs)
  end.

(** ** Outer product *)

(** The slots of [ws]: [make] fills them with the nil interface, written
    [None]. *)
Abbreviation Slots := (list (option Value)).

(** The inner loop [for j, u := range us] for row [i], slot by slot. *)
Fixpoint outerProduct_row (f : Value → Value → result Value)
    (ws : Slots) (nu i : nat) (v : Value) (j : nat) (us : list Value)
  : result Slots :=
  match us with
  | [] => Ok ws
  | u :: us' =>
      match f v u with
      | Ok w =>
          if decide (i * nu + j < length ws)
          then outerProduct_row f (<[i * nu + j := Some w]> ws) nu i v (S j) us'
          else index_out_of_range
      | Fail e => Fail e
      | Panic p => Panic p
      end
  end.

(** The outer loop [for i, v := range vs]. *)
Fixpoint outerProduct_rows (f : Value → Value → result Value)
    (ws : Slots) (nu i : nat) (vs us : list Value) : result Slots :=
  match vs with
  | [] => Ok ws
  | v :: vs' =>
      rbind (outerProduct_row f ws nu i v 0 us)
        (λ ws', outerProduct_rows f ws' nu (S i) vs' us)
  end.

(** Reading [ws] back as a sequence of values; a slot still nil holds no
    value (by lemma [outerProduct_refines] none is left on return). *)
Definition slot_values (ws : Slots) : list Value := omap id ws.

Definition outerProduct (vs us : list Value)
    (f : Value → Value → result Value) : result (list Value) :=
  let ws := replicate (length vs * length us) None in
  let nu := length us in
  rbind (outerProduct_rows f ws nu 0 vs us) (λ ws', Ok (slot_values ws')).

(** ** Syntax trees (package parse) *)

(** Modelled from the spec: the syntax tree (package parse is absent),
    in the part that [compound] inspects: the indexings of a compound and
    the type of the primary at the head of an indexing. *)
Module parse.
Inductive PrimaryType : Type :=
  | BadPrimary | Bareword | SingleQuoted | DoubleQuoted | Variable_
  | Wildcard | Tilde | ExceptionCapture | OutputCapture | List
  | Lambda | Map | Braced.

Record Primary : Type := mkPrimary {
  Type_ : PrimaryType;
  Value_ : string
}.

Record Indexing : Type := mkIndexing { Head : Primary }.

Record Compound : Type := mkCompound { Indexings : list Indexing }.
End parse.

(** ** Tilde expansion *)

Definition ErrBadGlobPattern : GoError :=
  ErrorString "bad GlobPattern; elvish bug".
Definition ErrCannotDetermineUsername : GoError :=
  ErrorString "cannot determine user name from glob pattern".

Section with_externals.
Context `{Externals}.

(** Modelled from the spec: [mustGetHome] (absent): the user name is
    resolved to a home directory, and the failure to do so is thrown. *)
Definition mustGetHome (uname : string) : result string :=
  match GetHome uname with
  | Ok dir => Ok dir
  | Fail e => throw e
  | Panic p => Panic p
  end.

Definition doTilde (v : Value) : result Value :=
  match v with
  | types.String s =>
      let i := strings_Index s "/" in
      let '(uname, rest) :=
        if decide (i = (-1)%Z) then (s, "")
        else (slice_to (Z.to_nat i) s, slice_from (Z.to_nat (i + 1)) s) in
      rbind (mustGetHome uname)
        (λ dir, Ok (types.String (path_Join dir rest)))
  | types.Glob v =>
      if decide (length (Segments v) = 0%nat) then throw ErrBadGlobPattern
      else
        match Segments v !! 0%nat with
        | Some (glob.Literal s) =>
            let i := strings_Index s "/" in
            if decide (i = (-1)%Z) then throw ErrCannotDetermineUsername
            else
              let uname := slice_to (Z.to_nat i) s in
              rbind (mustGetHome uname)
                (λ dir,
                   Ok (types.Glob
                         (mkGlobPattern
                            (glob.mkPattern
                               (<[0%nat :=
                                    glob.Literal
                                      (dir ++ slice_from (Z.to_nat i) s)]>
                                  (Segments v))
                               (glob.DirOverride (Pattern v)))
                            (Flags v) (Buts v))))
        | Some glob.Slash =>
            rbind (mustGetHome "")
              (λ dir,
                 Ok (types.Glob
                       (mkGlobPattern (glob.mkPattern (Segments v) dir)
                          (Flags v) (Buts v))))
        | Some _ => throw ErrCannotDetermineUsername
        | None => index_out_of_range
        end
  | _ =>
      throw (ErrorString
               ("tilde doesn't work on value of type " ++ Kind v))
  end.

(** ** Compound expressions *)

Record compoundOp : Type := mkCompoundOp {
  tilde : bool;
  subops : list ValuesOp
}.

(** The loop over [op.subops[1:]]: each further operand is evaluated
    and multiplied into the accumulator [vs]. *)
Fixpoint compoundOp_accumulate (rest : list ValuesOp) (vs : list Value)
  : M (list Value) :=
  match rest with
  | [] => ret vs
  | subop :: rest' =>
      let* us := ValuesOp_Exec subop in
      let* vs' := lift (outerProduct vs us cat) in
      compoundOp_accumulate rest' vs'
  end.

(** [newvs[i] = doTilde(v)] for each [v], in order. *)
Fixpoint doTilde_each (vs : list Value) : result (list Value) :=
  match vs with
  | [] => Ok []
  | v :: vs' =>
      rbind (doTilde v)
        (λ v', rbind (doTilde_each vs') (λ newvs, Ok (v' :: newvs)))
  end.

Definition isGlobPattern (v : Value) : bool :=
  match v with
  | types.Glob _ => true
  | _ => false
  end.

(** The expansion loop: a pattern is replaced by its matches, any other
    value is kept. *)
Fixpoint doGlob_each (ec : Frame) (vs newvs : list Value)
  : result (list Value) :=
  match vs with
  | [] => Ok newvs
  | types.Glob gp :: vs' =>
      rbind (doGlob gp ec) (λ ms, doGlob_each ec vs' (newvs ++ ms))
  | v :: vs' => doGlob_each ec vs' (newvs ++ [v])
  end.

Definition compoundOp_Invoke (op : compoundOp) : M (list Value) :=
  match subops op with
  | [] => lift index_out_of_range
  | subop0 :: rest =>
      let* vs := ValuesOp_Exec subop0 in
      let* vs := compoundOp_accumulate rest vs in
      let* vs := (if tilde op then lift (doTilde_each vs) else ret vs) in
      let hasGlob := existsb isGlobPattern vs in
      if hasGlob then λ ec, (doGlob_each ec vs [], ec)
      else ret vs
  end.

(** ** Literals *)

Definition literalValues (v : list Value) : ValuesOpBody :=
  λ fm, (Ok v, fm).

Definition literalStr (text : string) : ValuesOpBody :=
  literalValues [types.String text].

Definition funcValuesOp (f : M (list Value)) : ValuesOpBody := f.

(** ** Compiling a compound *)

(** Modelled from the spec: [compiler] (absent); only [indexingOps],
    the compilation of the indexings of a compound, is used here. *)
Record compiler : Type := mkCompiler {
  indexingOps : list parse.Indexing → list ValuesOp
}.

Definition isTilde (t : parse.PrimaryType) : bool :=
  match t with
  | parse.Tilde => true
  | _ => false
  end.

Definition compound (cp : compiler) (n : parse.Compound) : ValuesOpBody :=
  match parse.Indexings n with
  | [] => literalStr ""
  | first :: after =>
      if isTilde (parse.Type_ (parse.Head first)) then
        if decide (length (parse.Indexings n) = 1%nat) then
          funcValuesOp
            (λ ec,
               match GetHome "" with
               | Ok home => (Ok [types.String home], ec)
               | Fail err => (Fail err, ec)
               | Panic p => (Panic p, ec)
               end)
        else compoundOp_Invoke (mkCompoundOp true (indexingOps cp after))
      else
        compoundOp_Invoke
          (mkCompoundOp false (indexingOps cp (parse.Indexings n)))
  end.

End with_externals.

(** ** Exception capture *)

(** Modelled from the spec: [Frame.PEval] (the frame is absent): the body
    runs under protected evaluation; any failure it raises, returned or
    thrown, is caught and converted to an exception wrapping it. *)
Definition PEval (op : Op) (fm : Frame) : option GoError * Frame :=
  match op fm with
  | (Done, fm') => (None, fm')
  | (Failed e, fm') => (Some (ExceptionErr (Some e)), fm')
  | (Threw e, fm') => (Some (ExceptionErr (Some e)), fm')
  end.

Record exceptionCaptureOp : Type := mkExceptionCaptureOp {
  exceptionCapture_subop : Op
}.

(** The type assertion of [err] to a pointer to [Exception]. *)
Definition assert_Exception (err : GoError) : result Exception :=
  match err with
  | ExceptionErr cause => Ok (mkException cause)
  | _ => Panic (RuntimePanic "interface conversion: error is not *Exception")
  end.

Definition exceptionCaptureOp_Invoke (op : exceptionCaptureOp)
  : M (list Value) :=
  λ fm,
    match PEval (exceptionCapture_subop op) fm with
    | (None, fm') => (Ok [OK], fm')
    | (Some err, fm') =>
        (rbind (assert_Exception err) (λ exc, Ok [types.Exc exc]), fm')
    end.

(** ** Output capture: the drain of the byte pipe *)

Definition newline : ascii := "010"%char.
Definition newline_string : string := String.String newline EmptyString.

Definition io_EOF : GoError := ErrorString "EOF".

(** The read end of the pipe behind a [bufio.Reader]: the bytes still to
    come, and the error that ends the stream ([io.EOF] once the write end
    is closed, or a read error). *)
Record Reader : Type := mkReader {
  pending : string;
  end_error : GoError
}.

(** [bufio.Reader.ReadString(delim)]: the bytes up to and including the
    first [delim]; when the stream ends before a [delim], the bytes read
    so far together with the error. *)
Definition ReadString (r : Reader) (delim : ascii)
  : string * option GoError * Reader :=
  let i := strings_Index (pending r) (String.String delim EmptyString) in
  if decide (i = (-1)%Z)
  then (pending r, Some (end_error r), mkReader "" (end_error r))
  else (slice_to (Z.to_nat (i + 1)) (pending r), None,
        mkReader (slice_from (Z.to_nat (i + 1)) (pending r)) (end_error r)).

(** The [for] loop of [bytesCb], appending to the buffer [vs]; [fuel]
    bounds the number of iterations. *)
Fixpoint bytesCb_loop (fuel : nat) (buffered : Reader) (vs : list Value)
  : option (list Value) :=
  match fuel with
  | O => None
  | S fuel' =>
      let '(line, err, buffered') := ReadString buffered newline in
      let vs' :=
        if decide (line ≠ "")
        then vs ++ [types.String (strings_TrimSuffix line newline_string)]
        else vs in
      match err with
      | Some _ => Some vs'
      | None => bytesCb_loop fuel' buffered' vs'
      end
  end.

(** Every iteration but the last consumes at least the newline it found,
    so one more iteration than there are bytes is enough. *)
Definition bytesCb (r : Reader) (vs : list Value) : option (list Value) :=
  bytesCb_loop (S (String.length (pending r))) r vs.

(** The lines of a byte stream as the spec words them: each
    newline-terminated line without its newline, the final unterminated
    fragment discarded.  [cur] is the part of the current line already
    read. *)
Fixpoint terminated_lines (cur : string) (s : string) : list string :=
  match s with
  | EmptyString => []
  | String.String c s' =>
      if decide (c = newline)
      then cur :: terminated_lines "" s'
      else terminated_lines (cur ++ String.String c EmptyString) s'
  end.

(** What the drain does append: the terminated lines, then the final
    fragment when it is not empty. *)
Fixpoint drained_lines (cur : string) (s : string) : list string :=
  match s with
  | EmptyString => if decide (cur ≠ "") then [cur] else []
  | String.String c s' =>
      if decide (c = newline)
      then cur :: drained_lines "" s'
      else drained_lines (cur ++ String.String c EmptyString) s'
  end.

(** The final fragment of a byte stream: what follows its last newline. *)
Fixpoint final_fragment (cur : string) (s : string) : string :=
  match s with
  | EmptyString => cur
  | String.String c s' =>
      if decide (c = newline)
      then final_fragment "" s'
      else final_fragment (cur ++ String.String c EmptyString) s'
  end.

(** ** Lambdas *)

Record lambdaOp : Type := mkLambdaOp {
  argNames : list string;
  restArgName : string;
  optNames : list string;
  optDefaultOps : list ValuesOp;
  capture : gset string;
  lambda_subop : OpHandle;
  srcMeta : SourceHandle
}.

(** Modelled from the spec: [Frame.errorpf] (the frame is absent):
    evaluation fails with an error stating the message and the source
    span. *)
Definition errorpf {A : Type} (begin end_ : Z) (msg : string) : M A :=
  lift (throw (DiagError begin end_ msg)).

(** Modelled from the spec: [Frame.ExecAndUnwrap], [One] and [Any] (the
    unwrappers are absent): the operation is executed and its error
    thrown; it must produce one value, of any kind, which is the option's
    default value. *)
Definition ExecAndUnwrap_One_Any (desc : string) (op : ValuesOp) : M Value :=
  λ fm,
    match ValuesOp_Exec op fm with
    | (Ok [v], fm') => (Ok v, fm')
    | (Ok vs, fm') =>
        errorpf (Begin op) (End_ op)
          (desc ++ " must be 1 value; got " ++ pretty (length vs)) fm'
    | (Fail e, fm') => (throw e, fm')
    | (Panic p, fm') => (Panic p, fm')
    end.

(** The loop filling [optDefaults]. *)
Fixpoint lambdaOp_optDefaults (ops : list ValuesOp) : M (list Value) :=
  match ops with
  | [] => ret []
  | op :: ops' =>
      let* defaultValue := ExecAndUnwrap_One_Any "option default value" op in
      let* optDefaults := lambdaOp_optDefaults ops' in
      ret (defaultValue :: optDefaults)
  end.

Definition lambdaOp_Invoke (op : lambdaOp) : M (list Value) :=
  λ fm,
    let evCapture : gmap string (option Var) :=
      set_to_map (λ name, (name, ResolveVar fm "" name)) (capture op) in
    (let* optDefaults := lambdaOp_optDefaults (optDefaultOps op) in
     ret [types.Fn
            (mkClosure (argNames op) (restArgName op) (optNames op)
               optDefaults (lambda_subop op) evCapture (srcMeta op))]) fm.

(** ** Map literals *)

(** Modelled from the spec: the persistent hash map (package hashmap is
    absent): keys are unique and compared by value equality; [Assoc]
    overwrites the entry of an equal key. *)
Module hashmap.
Abbreviation Map := (list (Value * Value)).

Definition Empty : Map := [].

Fixpoint Assoc (m : Map) (k v : Value) : Map :=
  match m with
  | [] => [(k, v)]
  | (k', v') :: m' =>
      if Value_eqb k' k then (k, v) :: m' else (k', v') :: Assoc m' k v
  end.

Fixpoint Index (m : Map) (k : Value) : option Value :=
  match m with
  | [] => None
  | (k', v') :: m' => if Value_eqb k' k then Some v' else Index m' k
  end.
End hashmap.

Record mapPairsOp : Type := mkMapPairsOp {
  keysOps : list ValuesOp;
  valuesOps : list ValuesOp;
  begins : list Z;
  ends : list Z
}.

(** [for j, key := range keys { m = m.Assoc(key, values[j]) }]. *)
Fixpoint mapPairsOp_assoc (j : nat) (keys values : list Value)
    (m : hashmap.Map) : result hashmap.Map :=
  match keys with
  | [] => Ok m
  | key :: keys' =>
      match values !! j with
      | Some value => mapPairsOp_assoc (S j) keys' values (hashmap.Assoc m key value)
      | None => index_out_of_range
      end
  end.

(** [for i := range op.keysOps], from pair [i] on; [rest] is
    [op.keysOps[i:]]. *)
Fixpoint mapPairsOp_pairs (op : mapPairsOp) (i : nat) (rest : list ValuesOp)
    (m : hashmap.Map) : M hashmap.Map :=
  match rest with
  | [] => ret m
  | keysOp :: rest' =>
      let* keys := ValuesOp_Exec keysOp in
      match valuesOps op !! i with
      | None => lift index_out_of_range
      | Some valuesOp =>
          let* values := ValuesOp_Exec valuesOp in
          let* _ :=
            (if decide (length keys ≠ length values) then
               match begins op !! i, ends op !! i with
               | Some b, Some e =>
                   errorpf b e
                     (pretty (length keys) ++ " keys but " ++
                      pretty (length values) ++ " values")
               | _, _ => lift index_out_of_range
               end
             else ret tt) in
          let* m' := lift (mapPairsOp_assoc 0 keys values m) in
          mapPairsOp_pairs op (S i) rest' m'
      end
  end.

Definition mapPairsOp_Invoke (op : mapPairsOp) : M (list Value) :=
  let* m := mapPairsOp_pairs op 0 (keysOps op) hashmap.Empty in
  ret [types.Map m].

(** ** Segment sequences as slices over backing arrays *)

(** Concatenation onto a pattern, on the representation the program has:
    the segments of a pattern are a slice of an array in a store that all
    patterns share, so that a write to an array is seen through every
    slice of it. *)
Module slices.

Record Slice : Type := mkSlice {
  array : nat;
  len : nat;
  cap : nat
}.

Abbreviation Arrays := (gmap nat (list glob.Segment)).

(** The segment sequence seen through a slice. *)
Definition view (h : Arrays) (s : Slice) : list glob.Segment :=
  take (len s) (default [] (h !! array s)).

Record GlobPatternRef : Type := mkGlobPatternRef {
  SegmentsRef : Slice;
  DirOverrideRef : string;
  FlagsRef : Z;
  ButsRef : list string
}.

(** The pattern value a reference denotes in a store. *)
Definition deref (h : Arrays) (gp : GlobPatternRef) : GlobPattern :=
  mkGlobPattern
    (glob.mkPattern (view h (SegmentsRef gp)) (DirOverrideRef gp))
    (FlagsRef gp) (ButsRef gp).

(** Modelled from the spec: [GlobPattern.append] (eval/glob.go is
    absent): the segments are appended to a fresh copy of the pattern's
    segment sequence, that is, to a newly allocated array. *)
Definition GlobPattern_append (h : Arrays) (gp : GlobPatternRef)
    (segs : list glob.Segment) : Arrays * GlobPatternRef :=
  let a := fresh (dom h) in
  let content := view h (SegmentsRef gp) ++ segs in
  (<[a := content]> h,
   mkGlobPatternRef (mkSlice a (length content) (length content))
     (DirOverrideRef gp) (FlagsRef gp) (ButsRef gp)).

(** The arm of [cat] for a pattern on the left and a string on the
    right: [lhs] is the copy of the pattern bound by the type switch;
    it is appended to and returned. *)
Definition cat_GlobPattern_String (h : Arrays) (lhs : GlobPatternRef)
    (rhs : string) : Arrays * GlobPatternRef :=
  GlobPattern_append h lhs (stringToSegments rhs).

End slices.

(** ** Definitions used to state the properties *)

(** Applying [f] to the elements in order, stopping at the first that
    does not succeed. *)
Fixpoint result_mapM {A B : Type} (f : A → result B) (l : list A)
  : result (list B) :=
  match l with
  | [] => Ok []
  | x :: l' =>
      rbind (f x) (λ y, rbind (result_mapM f l') (λ ys, Ok (y :: ys)))
  end.

(** The outer product as the spec words it: for i in A (in order), for j
    in B (in order), emit combine(A[i], B[j]). *)
Definition outerProduct_spec (vs us : list Value)
    (f : Value → Value → result Value) : result (list Value) :=
  rbind (result_mapM (λ v, result_mapM (f v) us) vs) (λ rows, Ok (concat rows)).

(** The pairs of the outer product in row-major order. *)
Fixpoint row_major (vs us : list Value) : list (Value * Value) :=
  match vs with
  | [] => []
  | v :: vs' => ((λ u, (v, u)) <$> us) ++ row_major vs' us
  end.

(** The four combinations of kinds on which [cat] is defined. *)
Definition concatenable (lhs rhs : Value) : bool :=
  match lhs, rhs with
  | types.String _, types.String _ => true
  | types.String _, types.Glob _ => true
  | types.Glob _, types.String _ => true
  | types.Glob _, types.Glob _ => true
  | _, _ => false
  end.

(** ** Sample inputs *)

(** A file system with two users and two files, used to run the
    operations on concrete inputs.  Its [path_Join] joins two clean
    elements with a slash. *)
Definition sample_externals : Externals := {|
  GetHome := λ uname,
    if decide (uname = "") then Ok "/home/me"
    else if decide (uname = "alice") then Ok "/home/alice"
    else Fail (ErrorString ("user: unknown user " ++ uname));
  path_Join := λ dir rest,
    if decide (rest = "") then dir else (dir ++ "/" ++ rest)%string;
  doGlob := λ gp ec, Ok [types.String "a.go"; types.String "b.go"]
|}.

Definition sample_frame : Frame := mkFrame 0 0 (λ _ _, None) ∅.

(** Each operation of the list is executed exactly once, in order,
    leading from the first frame to the last, and yields exactly the one
    value listed for it. *)
Inductive executed_once_each
  : list ValuesOp → Frame → list Value → Frame → Prop :=
  | executed_nil fm : executed_once_each [] fm [] fm
  | executed_cons op ops fm v fm1 vs fm' :
      ValuesOp_Exec op fm = (Ok [v], fm1) →
      executed_once_each ops fm1 vs fm' →
      executed_once_each (op :: ops) fm (v :: vs) fm'.

(** The closure that evaluating a lambda gives in frame [fm] when its
    option defaults evaluate to [ds]. *)
Definition closure_of (op : lambdaOp) (fm : Frame) (ds : list Value) : Closure :=
  mkClosure (argNames op) (restArgName op) (optNames op) ds (lambda_subop op)
    (set_to_map (λ name, (name, ResolveVar fm "" name)) (capture op))
    (srcMeta op).

(** An operation that counts its executions: it yields the text of cell
    0 and appends a stroke to that cell. *)
Definition counter_cell : Var := 0.

Definition tick_body : ValuesOpBody :=
  λ fm,
    let s := match store fm !! counter_cell with
             | Some (types.String s) => s
             | _ => ""
             end in
    (Ok [types.String s],
     mkFrame (begin_ fm) (end_ fm) (scope fm)
       (<[counter_cell := types.String (s ++ "|")]> (store fm))).

Definition tick_op : ValuesOp := mkValuesOp tick_body 3 4.

(** A lambda with one option, whose default is computed by [tick_op]. *)
Definition sample_lambda : lambdaOp :=
  mkLambdaOp [] "" ["opt"] [tick_op] ∅ 0 0.


(** Evaluating the pairs of a map literal in order: the keys of a pair,
    then its values, then the next pair. *)
Fixpoint Exec_pairs (keysOps valuesOps : list ValuesOp)
  : M (list (list Value * list Value)) :=
  match keysOps, valuesOps with
  | keysOp :: keysOps', valuesOp :: valuesOps' =>
      let* keys := ValuesOp_Exec keysOp in
      let* values := ValuesOp_Exec valuesOp in
      let* kvs := Exec_pairs keysOps' valuesOps' in
      ret ((keys, values) :: kvs)
  | _, _ => ret []
  end.

(** The entries of the pairs, each pair zipped positionally, in order. *)
Definition entries_of (kvs : list (list Value * list Value))
  : list (Value * Value) :=
  concat ((λ kv, zip kv.1 kv.2) <$> kvs).

(** The value of the last entry for key [k]. *)
Fixpoint last_binding (k : Value) (entries : list (Value * Value))
  : option Value :=
  match entries with
  | [] => None
  | (k', v) :: rest =>
      match last_binding k rest with
      | Some v' => Some v'
      | None => if Value_eqb k' k then Some v else None
      end
  end.

(** Inserting entries one after the other. *)
Definition assoc_all (m : list (Value * Value)) (entries : list (Value * Value))
  : list (Value * Value) :=
  foldl (λ m kv, hashmap.Assoc m kv.1 kv.2) m entries.

(** A map literal with one pair, whose key expression gives two values
    and whose value expression gives three. *)
Definition sample_mapPairs : mapPairsOp :=
  mkMapPairsOp
    [mkValuesOp (literalValues [types.String "a"; types.String "b"]) 1 4]
    [mkValuesOp (literalValues
                   [types.String "x"; types.String "y"; types.String "z"]) 5 9]
    [1%Z] [9%Z].

(** A map literal with two pairs that collide on the key [a]. *)
Definition sample_mapPairs_collision : mapPairsOp :=
  mkMapPairsOp
    [mkValuesOp (literalValues [types.String "a"; types.String "b"]) 1 4;
     mkValuesOp (literalValues [types.String "a"]) 10 11]
    [mkValuesOp (literalValues [types.String "x"; types.String "y"]) 5 9;
     mkValuesOp (literalValues [types.String "z"]) 12 13]
    [1%Z; 10%Z] [9%Z; 13%Z].


(** A pair has as many keys as values. *)
Definition counts_match (kv : list Value * list Value) : Prop :=
  length kv.1 = length kv.2.

(** Evaluating the sub-expressions of a compound in order. *)
Fixpoint Exec_all (ops : list ValuesOp) : M (list (list Value)) :=
  match ops with
  | [] => ret []
  | op :: ops' =>
      let* vs := ValuesOp_Exec op in
      let* rest := Exec_all ops' in
      ret (vs :: rest)
  end.

(** The fold the spec words: left-to-right repeated outer product with
    [cat] as the combine function. *)
Fixpoint fold_outerProduct (acc : list Value) (Ss : list (list Value))
  : result (list Value) :=
  match Ss with
  | [] => Ok acc
  | S0 :: Ss' =>
      rbind (outerProduct acc S0 cat) (λ acc', fold_outerProduct acc' Ss')
  end.

(** The ways to select one element from each sequence, in lexicographic
    order: the selection from the earliest sequence varies slowest. *)
Fixpoint selections {A : Type} (Ss : list (list A)) : list (list A) :=
  match Ss with
  | [] => [[]]
  | S0 :: Ss' => s ← S0; (λ sel, s :: sel) <$> selections Ss'
  end.

(** Concatenating the values [us] onto [v], from left to right. *)
Fixpoint cat_all (v : Value) (us : list Value) : result Value :=
  match us with
  | [] => Ok v
  | u :: us' => rbind (cat v u) (λ w, cat_all w us')
  end.

(** [w] is the concatenation of the selected values. *)
Definition concat_of (sel : list Value) (w : Value) : Prop :=
  match sel with
  | [] => False
  | s0 :: rest => cat_all s0 rest = Ok w
  end.

Definition product_of_lengths {A : Type} (Ss : list (list A)) : nat :=
  foldr (λ S0 n, length S0 * n) 1 Ss.

Definition join_texts (ts : list string) : string :=
  foldr String.append "" ts.

(** The pattern of a single wildcard, as the compiler builds it. *)
Definition star : GlobPattern :=
  mkGlobPattern (glob.mkPattern [glob.Wild 0 false] "") 0 [].

(** The selections that continue the prefixes [pres] through the
    sequences [Ss]. *)
Definition continue_selections {A : Type} (pres : list (list A))
    (Ss : list (list A)) : list (list A) :=
  pre ← pres; (λ sel, pre ++ sel) <$> selections Ss.

(** The prefixes [pres], each extended by one element of [S0]. *)
Definition extend_selections {A : Type} (pres : list (list A)) (S0 : list A)
  : list (list A) :=
  pre ← pres; (λ u, pre ++ [u]) <$> S0.

(** The string values of the given texts. *)
Definition text_values (T : list string) : list Value := types.String <$> T.

(** ** Sequences of compounds: arrays, braced lists and list literals *)

Record seqValuesOp : Type := mkSeqValuesOp {
  seqValues_subops : list ValuesOp
}.

(** The loop of [seqValuesOp.Invoke], appending to [values]. *)
Fixpoint seqValuesOp_loop (rest : list ValuesOp) (values : list Value)
  : M (list Value) :=
  match rest with
  | [] => ret values
  | subop :: rest' =>
      let* moreValues := ValuesOp_Exec subop in
      seqValuesOp_loop rest' (values ++ moreValues)
  end.

Definition seqValuesOp_Invoke (op : seqValuesOp) : ValuesOpBody :=
  seqValuesOp_loop (seqValues_subops op) [].

Record listOp : Type := mkListOp {
  listOp_subop : ValuesOpBody
}.

(** Modelled from the spec: [types.MakeList] (package types is absent):
    the list value holding the given values in order. *)
Definition MakeList (values : list Value) : Value := types.List values.

Definition listOp_Invoke (op : listOp) : ValuesOpBody :=
  let* values := listOp_subop op in
  ret [MakeList values].

(** [cp.list], [cp.braced] and [cp.array], applied to the operations
    that [cp.compoundOps] (absent) compiled from the elements. *)
Definition compiler_list (elements : list ValuesOp) : ValuesOpBody :=
  listOp_Invoke (mkListOp (seqValuesOp_Invoke (mkSeqValuesOp elements))).

Definition compiler_braced (ops : list ValuesOp) : ValuesOpBody :=
  seqValuesOp_Invoke (mkSeqValuesOp ops).

Definition compiler_array (compounds : list ValuesOp) : ValuesOpBody :=
  seqValuesOp_Invoke (mkSeqValuesOp compounds).

(** ** Indexing *)

Record indexingOp : Type := mkIndexingOp {
  headOp : ValuesOp;
  indexOps : list ValuesOp
}.

Definition not_indexable (v : Value) : GoError :=
  ErrorString ("a " ++ Kind v ++ " not indexable").

Section indexing.

(** Modelled from the spec: the capability [types.Indexer] (package types
    is absent): a value may support indexing by another value, returning
    a value or failing.  [Indexer v] is the method [Index] of [v] when
    [v] has the capability. *)
Variable Indexer : Value → option (Value → result Value).

(** [for _, index := range indicies], appending to [newvs]. *)
Fixpoint indexingOp_indicies (indexer : Value → result Value)
    (indicies newvs : list Value) : result (list Value) :=
  match indicies with
  | [] => Ok newvs
  | index :: indicies' =>
      rbind (indexer index)
        (λ result, indexingOp_indicies indexer indicies' (newvs ++ [result]))
  end.

(** [for _, v := range vs], appending to [newvs]. *)
Fixpoint indexingOp_values (vs indicies newvs : list Value)
  : result (list Value) :=
  match vs with
  | [] => Ok newvs
  | v :: vs' =>
      match Indexer v with
      | None => Fail (not_indexable v)
      | Some indexer =>
          rbind (indexingOp_indicies indexer indicies newvs)
            (λ newvs', indexingOp_values vs' indicies newvs')
      end
  end.

(** [for _, indexOp := range op.indexOps]. *)
Fixpoint indexingOp_steps (rest : list ValuesOp) (vs : list Value)
  : M (list Value) :=
  match rest with
  | [] => ret vs
  | indexOp :: rest' =>
      let* indicies := ValuesOp_Exec indexOp in
      let* newvs := lift (indexingOp_values vs indicies []) in
      indexingOp_steps rest' newvs
  end.

Definition indexingOp_Invoke (op : indexingOp) : ValuesOpBody :=
  let* vs := ValuesOp_Exec (headOp op) in
  indexingOp_steps (indexOps op) vs.

(** Indexing one value by one index, as one step of the chain does. *)
Definition index_value (v index : Value) : result Value :=
  match Indexer v with
  | None => Fail (not_indexable v)
  | Some indexer => indexer index
  end.

(** An indexing chain as repeated outer products: the values [vs]
    indexed by each sequence of indices in turn. *)
Fixpoint fold_indexing (vs : list Value) (Is : list (list Value))
  : result (list Value) :=
  match Is with
  | [] => Ok vs
  | indicies :: Is' =>
      rbind (outerProduct vs indicies index_value)
        (λ vs', fold_indexing vs' Is')
  end.

End indexing.

(** ** Compiling map literals *)

(** Modelled from the spec: [parse.MapPair] (package parse is absent):
    the key of a pair, its value when it has one, and its span. *)
Module MapPair.
Record t : Type := mk {
  Key : parse.Compound;
  Value : option parse.Compound;
  Begin : Z;
  End_ : Z
}.
End MapPair.

(** The zero [ValuesOp] that [make] fills a slice with: its body is the
    nil interface, and invoking it is a nil dereference. *)
Definition zero_ValuesOp : ValuesOp :=
  mkValuesOp
    (lift (Panic (RuntimePanic
                    "invalid memory address or nil pointer dereference")))
    0 0.

Section mapPairs.

(** Modelled from the spec: [cp.compoundOp] (absent): the compilation of
    a compound into an operation with its span. *)
Variable cp_compoundOp : parse.Compound → ValuesOp.

(** The operation compiled for the value of a pair: a pair without a
    value stands for the boolean true, with the empty span at its end. *)
Definition mapPairs_valuesOp (pair_ : MapPair.t) : ValuesOp :=
  match MapPair.Value pair_ with
  | None =>
      let p := MapPair.End_ pair_ in
      mkValuesOp (literalValues [types.Bool true]) p p
  | Some value => cp_compoundOp value
  end.

(** [for i, pair := range pairs], writing slot [i] of the four slices. *)
Fixpoint mapPairs_loop (i : nat) (pairs : list MapPair.t) (op : mapPairsOp)
  : result mapPairsOp :=
  match pairs with
  | [] => Ok op
  | pair_ :: pairs' =>
      if decide (i < length (keysOps op) ∧ i < length (valuesOps op)
                 ∧ i < length (begins op) ∧ i < length (ends op))
      then
        mapPairs_loop (S i) pairs'
          (mkMapPairsOp
             (<[i := cp_compoundOp (MapPair.Key pair_)]> (keysOps op))
             (<[i := mapPairs_valuesOp pair_]> (valuesOps op))
             (<[i := MapPair.Begin pair_]> (begins op))
             (<[i := MapPair.End_ pair_]> (ends op)))
      else index_out_of_range
  end.

Definition mapPairs (pairs : list MapPair.t) : result mapPairsOp :=
  let npairs := length pairs in
  mapPairs_loop 0 pairs
    (mkMapPairsOp (replicate npairs zero_ValuesOp)
       (replicate npairs zero_ValuesOp)
       (replicate npairs 0%Z) (replicate npairs 0%Z)).

End mapPairs.

(** ** Output capture: the two drains *)

(** [pcaptureOutput] runs two drains that append to the one buffer [vs],
    each append under the mutex: [valueCb] receives from the channel,
    [bytesCb] reads lines from the pipe.  A state holds the values sent
    on the channel and not yet received, the read end of the pipe,
    whether [bytesCb] has returned, and the buffer. *)
Record Capture : Type := mkCapture {
  ch : list Value;
  pipeRead : Reader;
  bytesCollected : bool;
  captured : list Value
}.

Definition is_nil (err : option GoError) : bool :=
  match err with
  | None => true
  | Some _ => false
  end.

(** A step of either drain: [valueCb] receives the next value and appends
    it; [bytesCb] runs one iteration of its loop, and has returned when
    the read gave an error. *)
Inductive capture_step : Capture → Capture → Prop :=
  | valueCb_step v ch0 r done vs :
      capture_step (mkCapture (v :: ch0) r done vs)
        (mkCapture ch0 r done (vs ++ [v]))
  | bytesCb_step ch0 r vs line err r' :
      ReadString r newline = (line, err, r') →
      capture_step (mkCapture ch0 r false vs)
        (mkCapture ch0 r' (negb (is_nil err))
           (if decide (line ≠ "")
            then vs ++ [types.String (strings_TrimSuffix line newline_string)]
            else vs)).

(** [pcaptureOutputInner] returns once the channel is drained and
    [bytesCb] has returned. *)
Definition collected (c : Capture) : Prop :=
  ch c = [] ∧ bytesCollected c = true.

(** [w] interleaves [xs] and [ys]: it holds the elements of both, each
    sequence in its own order. *)
Inductive interleaving {A : Type} : list A → list A → list A → Prop :=
  | interleaving_nil : interleaving [] [] []
  | interleaving_l x xs ys w :
      interleaving xs ys w → interleaving (x :: xs) ys (x :: w)
  | interleaving_r y xs ys w :
      interleaving xs ys w → interleaving xs (y :: ys) (y :: w).

(** The lines that [bytesCb] has still to append. *)
Definition remaining_lines (c : Capture) : list Value :=
  if bytesCollected c then []
  else types.String <$> drained_lines "" (pending (pipeRead c)).

(** ** Further definitions used to state the properties *)

(** What the expansion loop of [compoundOp.Invoke] puts in the place of
    a value: the matches of a pattern, or the value itself. *)
Definition expand `{Externals} (ec : Frame) (v : Value) : result (list Value) :=
  match v with
  | types.Glob gp => doGlob gp ec
  | _ => Ok [v]
  end.

(** The byte stream that writes each line followed by a newline. *)
Fixpoint unlines (ls : list string) : string :=
  match ls with
  | [] => ""
  | l :: ls' => (l ++ newline_string ++ unlines ls')%string
  end.

(** A result that is not a panic of the Go runtime. *)
Definition no_runtime_panic {A : Type} (r : result A) : Prop :=
  match r with
  | Panic (RuntimePanic _) => False
  | _ => True
  end.

(** A map indexed by its keys, the one indexable kind of value in the
    sample inputs. *)
Definition sample_Indexer (v : Value) : option (Value → result Value) :=
  match v with
  | types.Map m =>
      Some (λ k, match hashmap.Index m k with
                 | Some x => Ok x
                 | None => Fail (ErrorString "no such key")
                 end)
  | _ => None
  end.


(** A lambda that uses the names [x] and [y] of its context, and a frame
    in which only [x] is bound, to cell 7. *)
Definition sample_capturing_lambda : lambdaOp :=
  mkLambdaOp ["a"] "" [] [] ({["x"]} ∪ {["y"]}) 0 0.

Definition sample_scope_frame : Frame :=
  mkFrame 0 0 (λ ns name, if decide (name = "x") then Some 7 else None) ∅.


(** A compiler of compounds for the sample inputs: the barewords of the
    compound joined into one string. *)
Definition sample_compoundOp (c : parse.Compound) : ValuesOp :=
  mkValuesOp
    (literalStr
       (join_texts ((λ ix, parse.Value_ (parse.Head ix)) <$> parse.Indexings c)))
    0 0.

(** The compound made of one bareword. *)
Definition bareword (text : string) : parse.Compound :=
  parse.mkCompound [parse.mkIndexing (parse.mkPrimary parse.Bareword text)].


(** * Properties *)

(** ** Equality of values *)

Fixpoint GoError_eqb_spec (a b : GoError) {struct a} :
  GoError_eqb a b = true ↔ a = b.
Proof.
  destruct a as [m|b1 e1 m|[c|]], b as [n|b2 e2 n|[d|]]; simpl;
    try (split; [discriminate | discriminate]).
  - rewrite bool_decide_eq_true. split; congruence.
  - rewrite !andb_true_iff, !bool_decide_eq_true. split.
    + intros [[-> ->] ->]; reflexivity.
    + intros [= -> -> ->]; auto.
  - rewrite (GoError_eqb_spec c d). split; congruence.
  - tauto.
Qed.

Lemma Exception_eqb_spec (e f : Exception) : Exception_eqb e f = true ↔ e = f.
Proof.
  unfold Exception_eqb. rewrite GoError_eqb_spec.
  destruct e, f; simpl. split; congruence.
Qed.

Lemma list_eqb_spec {A : Type} (eqb : A → A → bool) (l1 : list A) :
  Forall (λ x, ∀ y, eqb x y = true ↔ x = y) l1 →
  ∀ l2, list_eqb eqb l1 l2 = true ↔ l1 = l2.
Proof.
  induction 1 as [|x l1 Hx _ IH]; intros [|y l2]; simpl;
    try (split; [discriminate | discriminate]); [tauto|].
  rewrite andb_true_iff, Hx, IH. split.
  - intros [-> ->]; reflexivity.
  - intros [= -> ->]; auto.
Qed.

Lemma Value_eqb_spec (a b : Value) : Value_eqb a b = true ↔ a = b.
Proof.
  revert b. induction a as [s|x|vs IH|m IH|g|c IH|e] using Value_nested_ind;
    intros b; destruct b as [t|y|ws|n|h|d|f]; simpl;
    try (split; [discriminate | discriminate]).
  - rewrite bool_decide_eq_true. split; congruence.
  - rewrite bool_decide_eq_true. split; congruence.
  - rewrite (list_eqb_spec Value_eqb vs IH). split; congruence.
  - rewrite list_eqb_spec; [split; congruence|].
    eapply Forall_impl; [exact IH|].
    intros [k v] [Hk Hv] [k' v']; simpl in *.
    rewrite andb_true_iff, Hk, Hv. split; [intros [-> ->]|intros [= -> ->]]; auto.
  - rewrite bool_decide_eq_true. split; congruence.
  - destruct c as [a1 r1 o1 ds1 b1 cap1 src1], d as [a2 r2 o2 ds2 b2 cap2 src2].
    simpl in IH. rewrite !andb_true_iff, !bool_decide_eq_true.
    rewrite (list_eqb_spec Value_eqb ds1 IH). split.
    + intros [[[[[[-> ->] ->] ->] ->] ->] ->]. reflexivity.
    + intros [= -> -> -> -> -> -> ->]. tauto.
  - rewrite Exception_eqb_spec. split; congruence.
Qed.

Lemma Value_eqb_refl (a : Value) : Value_eqb a a = true.
Proof. apply Value_eqb_spec. reflexivity. Qed.


(** ** The result monad *)

Lemma result_mapM_Ok {A B : Type} (f : A → result B) (l : list A) (ys : list B) :
  result_mapM f l = Ok ys ↔ Forall2 (λ x y, f x = Ok y) l ys.
Proof.
  revert ys. induction l as [|x l IH]; intros ys; simpl.
  - split; [intros [= <-]; constructor | intros Hf; inversion Hf; reflexivity].
  - split.
    + destruct (f x) as [y| |] eqn:Hx; simpl; try discriminate.
      destruct (result_mapM f l) as [ys'| |] eqn:Hl; simpl; try discriminate.
      intros [= <-]. constructor; [exact Hx | apply IH; reflexivity].
    + intros Hf. inversion Hf as [|? y ? ys' Hx Hl]; subst.
      rewrite Hx; simpl. apply IH in Hl. rewrite Hl. reflexivity.
Qed.

Lemma result_mapM_length {A B : Type} (f : A → result B) l ys :
  result_mapM f l = Ok ys → length ys = length l.
Proof. rewrite result_mapM_Ok. intros Hf. symmetry. exact (Forall2_length _ _ _ Hf). Qed.

(** The first element on which [f] does not succeed decides the outcome. *)
Lemma result_mapM_stops {A B : Type} (f : A → result B) (pre post : list A) x :
  Forall (λ a, ∃ b, f a = Ok b) pre →
  (∀ b, f x ≠ Ok b) →
  result_mapM f (pre ++ x :: post) = rbind (f x) (λ _, Ok []).
Proof.
  intros Hpre Hx. induction Hpre as [|a pre [b Hb] _ IH]; simpl.
  - destruct (f x) as [b| |]; [destruct (Hx b); reflexivity | reflexivity..].
  - rewrite Hb; simpl. rewrite IH.
    destruct (f x) as [b'| |]; [destruct (Hx b'); reflexivity | reflexivity..].
Qed.

(** ** [outerProduct] *)

Lemma slot_values_Some (l : list Value) : slot_values (Some <$> l) = l.
Proof.
  unfold slot_values. induction l as [|x l IH]; [reflexivity|].
  rewrite fmap_cons. simpl. f_equal. exact IH.
Qed.

(** One row: the slots [i*nu+j ..] are overwritten by the results of the
    row, the others are left as they were. *)
Lemma outerProduct_row_spec f nu i v us : ∀ j ws,
  i * nu + j + length us ≤ length ws →
  outerProduct_row f ws nu i v j us =
  rbind (result_mapM (f v) us)
    (λ rs, Ok (take (i * nu + j) ws ++ (Some <$> rs)
               ++ drop (i * nu + j + length us) ws)).
Proof.
  induction us as [|u us IH]; intros j ws Hlen; simpl in *.
  - rewrite Nat.add_0_r, take_drop. reflexivity.
  - destruct (f v u) as [w| |]; simpl; [|reflexivity..].
    rewrite decide_True by lia.
    rewrite IH by (rewrite length_insert; lia).
    destruct (result_mapM (f v) us) as [rs| |]; simpl; [|reflexivity..].
    f_equal.
    replace (i * nu + S j) with (S (i * nu + j)) by lia.
    rewrite (take_S_r _ _ (Some w)) by (apply list_lookup_insert_eq; lia).
    rewrite take_insert_ge by lia.
    rewrite drop_insert_lt by lia.
    rewrite <- app_assoc. simpl.
    replace (i * nu + j + S (length us)) with (S (i * nu + j + length us)) by lia.
    reflexivity.
Qed.

Lemma outerProduct_rows_spec f us : ∀ vs i ws,
  (i + length vs) * length us ≤ length ws →
  outerProduct_rows f ws (length us) i vs us =
  rbind (result_mapM (λ v, result_mapM (f v) us) vs)
    (λ rows, Ok (take (i * length us) ws ++ (Some <$> concat rows)
                 ++ drop ((i + length vs) * length us) ws)).
Proof.
  induction vs as [|v vs IH]; intros i ws Hlen; simpl in *.
  - rewrite Nat.add_0_r, take_drop. reflexivity.
  - assert (Hi : i * length us + length us ≤ length ws) by nia.
    assert (Hrest : (S i + length vs) * length us ≤ length ws) by nia.
    rewrite outerProduct_row_spec by lia.
    destruct (result_mapM (f v) us) as [rs| |] eqn:Hrow; simpl; [|reflexivity..].
    pose proof (result_mapM_length _ _ _ Hrow) as Hrs.
    rewrite !Nat.add_0_r.
    set (k := i * length us) in *.
    assert (Hk : length (take k ws) = k) by (rewrite length_take; lia).
    assert (Hk' : length (take k ws ++ (Some <$> rs)) = k + length us)
      by (rewrite length_app, Hk, length_fmap; lia).
    rewrite IH; cycle 1.
    { rewrite !length_app, Hk, length_fmap, length_drop. simpl in Hrest. lia. }
    destruct (result_mapM _ vs) as [rows| |]; simpl; [|reflexivity..].
    f_equal.
    replace (length us + i * length us) with (k + length us) by (unfold k; lia).
    rewrite (app_assoc (take k ws) (Some <$> rs) (drop (k + length us) ws)).
    rewrite take_app_length' by (symmetry; exact Hk').
    replace (length us + (i + length vs) * length us)
      with ((k + length us) + length vs * length us) by (unfold k; lia).
    rewrite <- drop_drop.
    rewrite (drop_app_length' _ _ (k + length us)) by (symmetry; exact Hk').
    rewrite drop_drop.
    rewrite fmap_app, <- !app_assoc. do 3 f_equal. unfold k. f_equal. nia.
Qed.

(** The loops of [outerProduct] compute what the spec words: every slot
    is written, in row-major order. *)
Lemma outerProduct_refines vs us f :
  outerProduct vs us f = outerProduct_spec vs us f.
Proof.
  unfold outerProduct, outerProduct_spec.
  rewrite outerProduct_rows_spec by (rewrite length_replicate; lia).
  destruct (result_mapM _ vs) as [rows| |] eqn:Hrows; simpl; [|reflexivity..].
  rewrite drop_ge, app_nil_r by (rewrite length_replicate; lia).
  rewrite slot_values_Some. reflexivity.
Qed.

Lemma result_mapM_app {A B : Type} (f : A → result B) (l1 l2 : list A) :
  result_mapM f (l1 ++ l2) =
  rbind (result_mapM f l1)
    (λ r1, rbind (result_mapM f l2) (λ r2, Ok (r1 ++ r2))).
Proof.
  induction l1 as [|x l1 IH]; simpl.
  - destruct (result_mapM f l2); reflexivity.
  - destruct (f x); simpl; [|reflexivity..]. rewrite IH.
    destruct (result_mapM f l1); simpl; [|reflexivity..].
    destruct (result_mapM f l2); reflexivity.
Qed.

Lemma result_mapM_fmap {A B C : Type} (g : A → B) (f : B → result C) l :
  result_mapM f (g <$> l) = result_mapM (λ x, f (g x)) l.
Proof.
  induction l as [|x l IH]; [reflexivity|].
  rewrite fmap_cons. cbn [result_mapM]. rewrite IH. reflexivity.
Qed.

(** The outer product applies [f] to the pairs in row-major order and
    stops at the first pair on which it does not succeed. *)
Lemma outerProduct_row_major vs us f :
  outerProduct vs us f = result_mapM (λ p, f p.1 p.2) (row_major vs us).
Proof.
  rewrite outerProduct_refines. unfold outerProduct_spec.
  induction vs as [|v vs IH]; [reflexivity|].
  cbn [row_major result_mapM].
  rewrite result_mapM_app, result_mapM_fmap. cbn [fst snd].
  destruct (result_mapM (f v) us) as [row| |]; simpl; [|reflexivity..].
  rewrite <- IH.
  destruct (result_mapM _ vs) as [rows| |]; reflexivity.
Qed.

Lemma row_major_length vs us :
  length (row_major vs us) = length vs * length us.
Proof.
  induction vs as [|v vs IH]; [reflexivity|].
  cbn [row_major]. rewrite length_app, length_fmap, IH. reflexivity.
Qed.

Lemma row_major_lookup vs us i j v u :
  vs !! i = Some v → us !! j = Some u →
  row_major vs us !! (i * length us + j) = Some (v, u).
Proof.
  revert i. induction vs as [|v0 vs IH]; intros i Hi Hj; [discriminate|].
  pose proof (lookup_lt_Some _ _ _ Hj) as Hlt.
  cbn [row_major]. destruct i as [|i].
  - injection Hi as ->.
    rewrite lookup_app_l by (rewrite length_fmap; simpl; lia).
    simpl. rewrite list_lookup_fmap, Hj. reflexivity.
  - rewrite lookup_app_r by (rewrite length_fmap; simpl; lia).
    rewrite length_fmap.
    replace (S i * length us + j - length us)
      with (i * length us + j) by (simpl; lia).
    apply IH; assumption.
Qed.

Lemma row_major_elem vs us p :
  p ∈ row_major vs us → p.1 ∈ vs ∧ p.2 ∈ us.
Proof.
  induction vs as [|v vs IH]; [intros Hp; inversion Hp|].
  cbn [row_major].
  rewrite elem_of_app, list_elem_of_fmap. intros [[u [-> Hu]]|Hp]; simpl.
  - split; [left | exact Hu].
  - destruct (IH Hp) as [H1 H2]. split; [right; exact H1 | exact H2].
Qed.

(** ** Claim C2 *)

(** C2.  For all value sequences [A] and [B] and every combine function
    [f]: if [f] succeeds on all pairs, [outerProduct A B f] has length
    |A|*|B| and its element at row-major position (i,j) is [f A[i] B[j]];
    the outer product of the empty sequence with any [B] is empty; and if
    [f] fails on some pair, the first in row-major order, the outer
    product returns that failure and no values. *)
Theorem outerProduct_correct (A B : list Value)
    (f : Value → Value → result Value) :
  ((∀ a b, a ∈ A → b ∈ B → ∃ w, f a b = Ok w) →
   ∃ ws, outerProduct A B f = Ok ws ∧
         length ws = length A * length B ∧
         ∀ i j a b, A !! i = Some a → B !! j = Some b →
                    ∃ w, f a b = Ok w ∧ ws !! (i * length B + j) = Some w)
  ∧ outerProduct [] B f = Ok []
  ∧ (∀ pre p post e,
       row_major A B = pre ++ p :: post →
       Forall (λ q, ∃ w, f q.1 q.2 = Ok w) pre →
       f p.1 p.2 = Fail e →
       outerProduct A B f = Fail e).
Proof.
  split; [|split].
  - intros Hall.
    assert (Hok : ∃ ws, result_mapM (λ p, f p.1 p.2) (row_major A B) = Ok ws).
    { assert (Hrm : Forall (λ p, ∃ w, f p.1 p.2 = Ok w) (row_major A B)).
      { apply Forall_forall. intros p Hp.
        destruct (row_major_elem _ _ _ Hp) as [H1 H2]. exact (Hall _ _ H1 H2). }
      induction Hrm as [|p l [w Hw] _ [ws IH]]; simpl; [eexists; reflexivity|].
      rewrite Hw, IH. simpl. eexists; reflexivity. }
    destruct Hok as [ws Hws]. exists ws.
    rewrite outerProduct_row_major. split; [exact Hws|].
    pose proof Hws as Hf2. apply result_mapM_Ok in Hf2.
    split.
    + rewrite <- (Forall2_length _ _ _ Hf2). apply row_major_length.
    + intros i j a b Hi Hj.
      pose proof (row_major_lookup _ _ _ _ _ _ Hi Hj) as Hp.
      destruct (Forall2_lookup_l _ _ _ _ _ Hf2 Hp) as [w [Hw Hfw]].
      exists w. split; [exact Hfw | exact Hw].
  - reflexivity.
  - intros pre p post e Hsplit Hpre Hp.
    rewrite outerProduct_row_major, Hsplit.
    rewrite result_mapM_stops; [rewrite Hp; reflexivity | exact Hpre |].
    intros b Hb. rewrite Hp in Hb. discriminate.
Qed.

Lemma outerProduct_correct_witness :
  (∃ ws, outerProduct [types.String "a"; types.String "b"]
           [types.String "x"; types.String "y"; types.String "z"] cat = Ok ws ∧
         length ws = 6 ∧
         ws !! 5 = Some (types.String "bz"))
  ∧ outerProduct [types.String "a"] [types.String "x"; types.Bool true] cat
    = Fail (unsupported_concat (types.String "a") (types.Bool true)).
Proof.
  split.
  - destruct (outerProduct_correct
                [types.String "a"; types.String "b"]
                [types.String "x"; types.String "y"; types.String "z"] cat)
      as [Hfirst _].
    destruct Hfirst as [ws [Hws [Hlen Hidx]]].
    + intros a b Ha Hb.
      repeat (apply elem_of_cons in Ha as [->|Ha]);
        repeat (apply elem_of_cons in Hb as [->|Hb]);
        try (eexists; reflexivity);
        try (inversion Ha); inversion Hb.
    + exists ws. split; [exact Hws|]. split; [exact Hlen|].
      destruct (Hidx 1 2 (types.String "b") (types.String "z") eq_refl eq_refl)
        as [w [Hw Hl]].
      simpl in Hw. injection Hw as <-. exact Hl.
  - destruct (outerProduct_correct [types.String "a"]
                [types.String "x"; types.Bool true] cat) as [_ [_ Hfail]].
    apply (Hfail [(types.String "a", types.String "x")]
                 (types.String "a", types.Bool true) []).
    + reflexivity.
    + repeat constructor. eexists; reflexivity.
    + reflexivity.
Defined.

(** ** Claim C3 *)

(** C3.  For all strings [a] and [b], [cat] of the two string values is
    the string value of their concatenation; for every pair of operands
    outside the four (string, glob-pattern) combinations [cat] fails with
    the "unsupported concat" error naming both kinds; and on the four
    combinations it never fails with an error. *)
Theorem cat_correct :
  (∀ a b : string,
     cat (types.String a) (types.String b) = Ok (types.String (a ++ b)))
  ∧ (∀ lhs rhs,
       concatenable lhs rhs = false →
       cat lhs rhs =
       Fail (ErrorString
               ("unsupported concat: " ++ Kind lhs ++ " and " ++ Kind rhs)))
  ∧ (∀ lhs rhs, concatenable lhs rhs = true → ∀ e, cat lhs rhs ≠ Fail e).
Proof.
  split; [|split].
  - reflexivity.
  - intros lhs rhs Hc.
    destruct lhs, rhs; simpl in Hc; try discriminate Hc; reflexivity.
  - intros lhs rhs Hc e.
    destruct lhs as [l| | | |l| |], rhs as [r| | | |r| |];
      simpl in Hc; try discriminate Hc; simpl; try discriminate;
      destruct (Segments r !! 0); discriminate.
Qed.

Lemma cat_correct_witness :
  cat (types.String "foo") (types.String "bar") = Ok (types.String "foobar")
  ∧ cat (types.Bool true) (types.List []) =
    Fail (ErrorString "unsupported concat: bool and list")
  ∧ cat (types.String "a")
        (types.Glob (mkGlobPattern (glob.mkPattern [glob.Wild 0 false] "") 0 []))
    ≠ Fail (ErrorString "unsupported concat: string and glob-pattern").
Proof.
  destruct cat_correct as [Hstr [Hbad Hgood]].
  split; [apply (Hstr "foo" "bar")|]. split.
  - apply (Hbad (types.Bool true) (types.List [])). reflexivity.
  - apply Hgood. reflexivity.
Defined.

(** ** Strings *)

Lemma prefix_byte (c : ascii) (s : string) :
  String.prefix (String.String c EmptyString) s =
  match s with
  | EmptyString => false
  | String.String b _ => bool_decide (c = b)
  end.
Proof.
  destruct s as [|b s]; simpl; [reflexivity|].
  destruct (ascii_dec c b) as [->|Hne].
  - rewrite bool_decide_eq_true_2 by reflexivity. destruct s; reflexivity.
  - rewrite bool_decide_eq_false_2 by exact Hne. reflexivity.
Qed.

(** The index of a byte that does not occur is [-1]. *)
Lemma strings_Index_from_absent (c : ascii) (s : string) : ∀ k,
  c ∉ list_ascii_of_string s →
  strings_Index_from k s (String.String c EmptyString) = (-1)%Z.
Proof.
  induction s as [|b s IH]; intros k Hc.
  - reflexivity.
  - cbn [strings_Index_from]. rewrite prefix_byte.
    simpl in Hc. apply not_elem_of_cons in Hc as [Hne Hc].
    rewrite bool_decide_eq_false_2 by exact Hne. apply IH, Hc.
Qed.

Lemma append_nil_l (s : string) : ("" ++ s)%string = s.
Proof. reflexivity. Qed.

Lemma append_cons (b : ascii) (s t : string) :
  (String.String b s ++ t)%string = String.String b (s ++ t).
Proof. reflexivity. Qed.

(** The index of the first occurrence of a byte is the length of the
    part before it. *)
Lemma strings_Index_from_first (c : ascii) (pre rest : string) : ∀ k,
  c ∉ list_ascii_of_string pre →
  strings_Index_from k (pre ++ String.String c rest) (String.String c EmptyString)
  = (k + Z.of_nat (String.length pre))%Z.
Proof.
  induction pre as [|b pre IH]; intros k Hc.
  - rewrite append_nil_l. cbn [strings_Index_from]. rewrite prefix_byte.
    rewrite bool_decide_eq_true_2 by reflexivity. simpl. lia.
  - rewrite append_cons. cbn [strings_Index_from]. rewrite prefix_byte.
    simpl in Hc. apply not_elem_of_cons in Hc as [Hne Hc].
    rewrite bool_decide_eq_false_2 by exact Hne.
    rewrite IH by exact Hc. cbn [String.length]. lia.
Qed.

Lemma slice_to_app (pre rest : string) :
  slice_to (String.length pre) (pre ++ rest) = pre.
Proof.
  induction pre as [|b pre IH].
  - rewrite append_nil_l. destruct rest; reflexivity.
  - rewrite append_cons. simpl. rewrite IH. reflexivity.
Qed.

Lemma slice_from_app (pre rest : string) :
  slice_from (String.length pre) (pre ++ rest) = rest.
Proof.
  induction pre as [|b pre IH].
  - rewrite append_nil_l. destruct rest; reflexivity.
  - rewrite append_cons. simpl. exact IH.
Qed.

Lemma length_append (s t : string) :
  String.length (s ++ t) = String.length s + String.length t.
Proof.
  induction s as [|b s IH]; [reflexivity|].
  rewrite append_cons. simpl. rewrite IH. reflexivity.
Qed.

Lemma append_assoc (s t u : string) :
  ((s ++ t) ++ u)%string = (s ++ (t ++ u))%string.
Proof.
  induction s as [|b s IH]; [reflexivity|].
  rewrite !append_cons, IH. reflexivity.
Qed.

Lemma append_nil_r (s : string) : (s ++ "")%string = s.
Proof.
  induction s as [|b s IH]; [reflexivity|].
  rewrite append_cons, IH. reflexivity.
Qed.

(** ** Claims C9 and C10: tilde expansion and the compilation of compounds *)

Section tilde.
Context `{Externals}.

(** C9.  Tilde expansion of the string user/sub is the join of the home
    directory of user and sub; a compound that is a lone tilde evaluates
    to the single string that is the invoking user's home directory; and
    tilde expansion of a glob pattern whose first segment is a literal
    without a path separator throws "cannot determine user name". *)
Theorem tilde_expansion :
  (∀ user sub dir,
     "/"%char ∉ list_ascii_of_string user →
     GetHome user = Ok dir →
     doTilde (types.String (user ++ "/" ++ sub))
     = Ok (types.String (path_Join dir sub)))
  ∧ (∀ cp first home fm,
       isTilde (parse.Type_ (parse.Head first)) = true →
       GetHome "" = Ok home →
       compound cp (parse.mkCompound [first]) fm
       = (Ok [types.String home], fm))
  ∧ (∀ gp s rest,
       Segments gp = glob.Literal s :: rest →
       "/"%char ∉ list_ascii_of_string s →
       doTilde (types.Glob gp)
       = throw (ErrorString "cannot determine user name from glob pattern")).
Proof.
  split; [|split].
  - intros user sub dir Hno Hhome. unfold doTilde, strings_Index.
    change (user ++ "/" ++ sub)%string
      with (user ++ String.String "/" sub)%string.
    rewrite (strings_Index_from_first "/" user sub 0 Hno).
    rewrite decide_False by lia.
    replace (Z.to_nat (0 + Z.of_nat (String.length user)))
      with (String.length user) by lia.
    replace (Z.to_nat (0 + Z.of_nat (String.length user) + 1))
      with (String.length (user ++ "/")%string)
      by (rewrite length_append; simpl; lia).
    rewrite slice_to_app.
    change (user ++ String.String "/" sub)%string
      with (user ++ ("/" ++ sub))%string.
    rewrite <- append_assoc, slice_from_app.
    unfold mustGetHome. rewrite Hhome. reflexivity.
  - intros cp first home fm Htilde Hhome. unfold compound. simpl.
    rewrite Htilde. unfold funcValuesOp. rewrite Hhome. reflexivity.
  - intros gp s rest Hsegs Hno. unfold doTilde. rewrite Hsegs. simpl.
    unfold strings_Index.
    rewrite (strings_Index_from_absent "/" s 0 Hno).
    reflexivity.
Qed.

(** C10.  Compiling a compound with zero indexings gives an operation
    that, on every frame, succeeds with exactly one value, the empty
    string. *)
Theorem compound_empty (cp : compiler) (fm : Frame) :
  compound cp (parse.mkCompound []) fm = (Ok [types.String ""], fm).
Proof. reflexivity. Qed.

End tilde.

Lemma tilde_expansion_witness :
  doTilde (H := sample_externals) (types.String "alice/docs")
  = Ok (types.String "/home/alice/docs")
  ∧ compound (H := sample_externals) (mkCompiler (λ _, []))
      (parse.mkCompound [parse.mkIndexing (parse.mkPrimary parse.Tilde "~")])
      sample_frame
    = (Ok [types.String "/home/me"], sample_frame)
  ∧ doTilde (H := sample_externals)
      (types.Glob
         (mkGlobPattern
            (glob.mkPattern [glob.Literal "alice"; glob.Wild 0 false] "") 0 []))
    = throw (ErrorString "cannot determine user name from glob pattern").
Proof.
  destruct (tilde_expansion (H := sample_externals)) as [Hstr [Hlone Hglob]].
  split; [|split].
  - apply (Hstr "alice" "docs" "/home/alice"); [|reflexivity].
    vm_compute. intros Hin.
    repeat (apply elem_of_cons in Hin as [Hin|Hin]; [discriminate Hin|]).
    inversion Hin.
  - apply (Hlone _ _ "/home/me"); reflexivity.
  - apply (Hglob _ "alice" [glob.Wild 0 false]); [reflexivity|].
    vm_compute. intros Hin.
    repeat (apply elem_of_cons in Hin as [Hin|Hin]; [discriminate Hin|]).
    inversion Hin.
Defined.

(** ** Claim C7: exception capture *)

(** Protected evaluation only ever returns an exception. *)
Lemma PEval_Exception (op : Op) (fm : Frame) err fm' :
  PEval op fm = (Some err, fm') → ∃ cause, err = ExceptionErr (Some cause).
Proof.
  unfold PEval. destruct (op fm) as [[|e|e] fm1]; intros [= <- <-];
    eexists; reflexivity.
Qed.

(** C7.  For every body operation and frame, exception capture returns
    exactly one value and no error: the OK sentinel when the body
    succeeds, and an exception value wrapping the failure when the body
    returns or throws one. *)
Theorem exceptionCapture_one_value (op : exceptionCaptureOp) (fm : Frame) :
  (∃ v fm', exceptionCaptureOp_Invoke op fm = (Ok [v], fm'))
  ∧ match exceptionCapture_subop op fm with
    | (Done, fm') => exceptionCaptureOp_Invoke op fm = (Ok [OK], fm')
    | (Failed e, fm') | (Threw e, fm') =>
        exceptionCaptureOp_Invoke op fm
        = (Ok [types.Exc (mkException (Some e))], fm')
    end.
Proof.
  unfold exceptionCaptureOp_Invoke, PEval.
  destruct (exceptionCapture_subop op fm) as [[|e|e] fm']; simpl;
    (split; [eexists; eexists; reflexivity | reflexivity]).
Qed.

(** ** Claim C4: the drain of the byte pipe *)

Lemma string_split_byte (c : ascii) (s : string) :
  c ∉ list_ascii_of_string s
  ∨ ∃ pre rest, s = (pre ++ String.String c rest)%string
                ∧ c ∉ list_ascii_of_string pre.
Proof.
  induction s as [|b s IH].
  - left. simpl. apply not_elem_of_nil.
  - destruct (decide (c = b)) as [->|Hne].
    + right. exists "", s. split; [reflexivity|]. simpl. apply not_elem_of_nil.
    + destruct IH as [Hno|[pre [rest [-> Hno]]]].
      * left. simpl. apply not_elem_of_cons. split; assumption.
      * right. exists (String.String b pre), rest. split; [reflexivity|].
        simpl. apply not_elem_of_cons. split; assumption.
Qed.

Lemma slice_from_elem (n : nat) : ∀ (s : string) c,
  c ∈ list_ascii_of_string (slice_from n s) → c ∈ list_ascii_of_string s.
Proof.
  induction n as [|n IH]; intros s c Hc.
  - destruct s; exact Hc.
  - destruct s as [|b s]; simpl in *; [exact Hc|].
    right. apply IH, Hc.
Qed.

Lemma strings_TrimSuffix_newline (pre : string) :
  strings_TrimSuffix (pre ++ newline_string) newline_string = pre.
Proof.
  unfold strings_TrimSuffix, strings_HasSuffix.
  rewrite length_append. simpl.
  replace (String.length pre + 1 - 1) with (String.length pre) by lia.
  rewrite slice_from_app, slice_to_app.
  rewrite !bool_decide_eq_true_2 by (reflexivity || lia). reflexivity.
Qed.

Lemma strings_TrimSuffix_absent (s : string) :
  newline ∉ list_ascii_of_string s →
  strings_TrimSuffix s newline_string = s.
Proof.
  intros Hno. unfold strings_TrimSuffix, strings_HasSuffix.
  destruct (bool_decide (String.length newline_string ≤ String.length s));
    [|reflexivity].
  rewrite bool_decide_eq_false_2; [reflexivity|].
  intros Heq. apply Hno.
  apply (slice_from_elem (String.length s - String.length newline_string)).
  rewrite Heq. simpl. left.
Qed.

Lemma ReadString_newline (pre rest : string) (e : GoError) :
  newline ∉ list_ascii_of_string pre →
  ReadString (mkReader (pre ++ String.String newline rest) e) newline
  = ((pre ++ newline_string)%string, None, mkReader rest e).
Proof.
  intros Hno. unfold ReadString, strings_Index. simpl pending.
  rewrite (strings_Index_from_first newline pre rest 0 Hno).
  rewrite decide_False by lia.
  replace (Z.to_nat (0 + Z.of_nat (String.length pre) + 1))
    with (String.length (pre ++ newline_string)%string)
    by (rewrite length_append; simpl; lia).
  change (pre ++ String.String newline rest)%string
    with (pre ++ (newline_string ++ rest))%string.
  rewrite <- append_assoc, slice_to_app, slice_from_app. reflexivity.
Qed.

Lemma ReadString_end (s : string) (e : GoError) :
  newline ∉ list_ascii_of_string s →
  ReadString (mkReader s e) newline = (s, Some e, mkReader "" e).
Proof.
  intros Hno. unfold ReadString, strings_Index. simpl pending.
  rewrite (strings_Index_from_absent newline s 0 Hno).
  rewrite decide_True by reflexivity. reflexivity.
Qed.

Lemma drained_lines_end (s : string) : ∀ cur,
  newline ∉ list_ascii_of_string s →
  drained_lines cur s
  = if decide ((cur ++ s)%string ≠ "") then [(cur ++ s)%string] else [].
Proof.
  induction s as [|b s IH]; intros cur Hno.
  - simpl. rewrite append_nil_r. reflexivity.
  - simpl in Hno. apply not_elem_of_cons in Hno as [Hne Hno].
    cbn [drained_lines]. rewrite decide_False by congruence.
    rewrite IH by exact Hno. rewrite append_assoc. reflexivity.
Qed.

Lemma drained_lines_newline (pre rest : string) : ∀ cur,
  newline ∉ list_ascii_of_string pre →
  drained_lines cur (pre ++ String.String newline rest)
  = (cur ++ pre)%string :: drained_lines "" rest.
Proof.
  induction pre as [|b pre IH]; intros cur Hno.
  - rewrite append_nil_l, append_nil_r. cbn [drained_lines].
    rewrite decide_True by reflexivity. reflexivity.
  - simpl in Hno. apply not_elem_of_cons in Hno as [Hne Hno].
    rewrite append_cons. cbn [drained_lines].
    rewrite decide_False by congruence.
    rewrite IH by exact Hno. rewrite append_assoc. reflexivity.
Qed.

Lemma terminated_lines_end (s : string) : ∀ cur,
  newline ∉ list_ascii_of_string s → terminated_lines cur s = [].
Proof.
  induction s as [|b s IH]; intros cur Hno; [reflexivity|].
  simpl in Hno. apply not_elem_of_cons in Hno as [Hne Hno].
  cbn [terminated_lines]. rewrite decide_False by congruence.
  apply IH, Hno.
Qed.

Lemma terminated_lines_newline (pre rest : string) : ∀ cur,
  newline ∉ list_ascii_of_string pre →
  terminated_lines cur (pre ++ String.String newline rest)
  = (cur ++ pre)%string :: terminated_lines "" rest.
Proof.
  induction pre as [|b pre IH]; intros cur Hno.
  - rewrite append_nil_l, append_nil_r. cbn [terminated_lines].
    rewrite decide_True by reflexivity. reflexivity.
  - simpl in Hno. apply not_elem_of_cons in Hno as [Hne Hno].
    rewrite append_cons. cbn [terminated_lines].
    rewrite decide_False by congruence.
    rewrite IH by exact Hno. rewrite append_assoc. reflexivity.
Qed.

(** With more iterations allowed than there are bytes, the loop ends,
    having appended the drained lines. *)
Lemma bytesCb_loop_spec (e : GoError) : ∀ fuel s vs,
  String.length s < fuel →
  bytesCb_loop fuel (mkReader s e) vs
  = Some (vs ++ (types.String <$> drained_lines "" s)).
Proof.
  induction fuel as [|fuel IH]; intros s vs Hfuel; [lia|].
  cbn [bytesCb_loop].
  destruct (string_split_byte newline s) as [Hno|[pre [rest [-> Hno]]]].
  - rewrite (ReadString_end s e Hno).
    rewrite (drained_lines_end s "" Hno), append_nil_l.
    destruct (decide (s ≠ "")) as [Hs|Hs].
    + rewrite (strings_TrimSuffix_absent s Hno). reflexivity.
    + rewrite app_nil_r. reflexivity.
  - rewrite (ReadString_newline pre rest e Hno).
    rewrite decide_True by (destruct pre; discriminate).
    rewrite strings_TrimSuffix_newline.
    rewrite IH by (rewrite length_append in Hfuel; simpl in Hfuel; lia).
    rewrite (drained_lines_newline pre rest "" Hno), append_nil_l.
    rewrite fmap_cons, <- app_assoc. reflexivity.
Qed.

Lemma final_fragment_end (s : string) : ∀ cur,
  newline ∉ list_ascii_of_string s → final_fragment cur s = (cur ++ s)%string.
Proof.
  induction s as [|b s IH]; intros cur Hno.
  - simpl. rewrite append_nil_r. reflexivity.
  - simpl in Hno. apply not_elem_of_cons in Hno as [Hne Hno].
    cbn [final_fragment]. rewrite decide_False by congruence.
    rewrite IH by exact Hno. rewrite append_assoc. reflexivity.
Qed.

Lemma final_fragment_newline (pre rest : string) : ∀ cur,
  newline ∉ list_ascii_of_string pre →
  final_fragment cur (pre ++ String.String newline rest)
  = final_fragment "" rest.
Proof.
  induction pre as [|b pre IH]; intros cur Hno.
  - rewrite append_nil_l. cbn [final_fragment].
    rewrite decide_True by reflexivity. reflexivity.
  - simpl in Hno. apply not_elem_of_cons in Hno as [Hne Hno].
    rewrite append_cons. cbn [final_fragment].
    rewrite decide_False by congruence. apply IH, Hno.
Qed.

(** What the drain appends is the terminated lines followed by the final
    fragment, unless that is empty. *)
Lemma drained_lines_fragment (s : string) : ∀ cur,
  drained_lines cur s
  = terminated_lines cur s
    ++ (if decide (final_fragment cur s ≠ "") then [final_fragment cur s]
        else []).
Proof.
  induction s as [|b s IH]; intros cur; [reflexivity|].
  cbn [drained_lines terminated_lines final_fragment].
  destruct (decide (b = newline)); rewrite IH; reflexivity.
Qed.

(** C4, as the code has it.  For every byte stream, the drain returns,
    having appended to the buffer, in order, each newline-terminated line
    without its newline as a text value, and then the final fragment
    lacking a newline as a text value when that fragment is not empty.
    (The buffer is followed through the drain alone; the appends of the
    other drain interleave with these.) *)
Theorem bytesCb_lines (r : Reader) (vs : list Value) :
  bytesCb r vs
  = Some (vs ++ (types.String <$> terminated_lines "" (pending r))
             ++ (if decide (final_fragment "" (pending r) ≠ "")
                 then [types.String (final_fragment "" (pending r))]
                 else []))
  ∧ (∀ fuel, String.length (pending r) < fuel →
             bytesCb_loop fuel r vs = bytesCb r vs)
  ∧ (∀ pre rest,
       newline ∉ list_ascii_of_string pre →
       terminated_lines "" (pre ++ String.String newline rest)
       = pre :: terminated_lines "" rest
       ∧ final_fragment "" (pre ++ String.String newline rest)
         = final_fragment "" rest)
  ∧ (∀ frag,
       newline ∉ list_ascii_of_string frag →
       terminated_lines "" frag = [] ∧ final_fragment "" frag = frag).
Proof.
  destruct r as [s e]. unfold bytesCb. simpl pending.
  split; [|split; [|split]].
  - rewrite bytesCb_loop_spec by lia. rewrite drained_lines_fragment.
    rewrite fmap_app. do 3 f_equal.
    destruct (decide (final_fragment "" s ≠ "")); reflexivity.
  - intros fuel Hfuel.
    rewrite !bytesCb_loop_spec by lia. reflexivity.
  - intros pre rest Hno. split.
    + rewrite (terminated_lines_newline pre rest "" Hno), append_nil_l.
      reflexivity.
    + apply final_fragment_newline, Hno.
  - intros frag Hno. split.
    + apply terminated_lines_end, Hno.
    + rewrite (final_fragment_end frag "" Hno), append_nil_l. reflexivity.
Qed.

Lemma bytesCb_lines_witness :
  bytesCb_loop 10 (mkReader ("ab" ++ newline_string ++ "c") io_EOF) []
  = bytesCb (mkReader ("ab" ++ newline_string ++ "c") io_EOF) []
  ∧ (terminated_lines "" ("ab" ++ String.String newline "c")
     = "ab" :: terminated_lines "" "c"
     ∧ final_fragment "" ("ab" ++ String.String newline "c")
       = final_fragment "" "c")
  ∧ (terminated_lines "" "c" = [] ∧ final_fragment "" "c" = "c").
Proof.
  destruct (bytesCb_lines (mkReader ("ab" ++ newline_string ++ "c") io_EOF) [])
    as [_ [Hfuel [Hline Hfrag]]].
  split; [|split].
  - apply Hfuel. vm_compute. lia.
  - apply Hline. vm_compute. intros Hin.
    repeat (apply elem_of_cons in Hin as [Hin|Hin]; [discriminate Hin|]).
    inversion Hin.
  - apply (Hfrag "c"). vm_compute. intros Hin.
    repeat (apply elem_of_cons in Hin as [Hin|Hin]; [discriminate Hin|]).
    inversion Hin.
Defined.

(** The stream [a\nb]: the spec's lines are just [a], but the drain also
    appends the unterminated fragment [b]. *)
Lemma bytesCb_keeps_final_fragment :
  bytesCb (mkReader ("a" ++ newline_string ++ "b") io_EOF) []
  = Some [types.String "a"; types.String "b"]
  ∧ terminated_lines "" ("a" ++ newline_string ++ "b") = ["a"]
  ∧ bytesCb (mkReader ("a" ++ newline_string ++ "b") io_EOF) []
    ≠ Some (types.String <$> terminated_lines "" ("a" ++ newline_string ++ "b")).
Proof.
  split; [vm_compute; reflexivity|]. split; [vm_compute; reflexivity|].
  vm_compute. discriminate.
Qed.

(** ** Claim C5: the defaults of named options *)

Lemma lambdaOp_optDefaults_spec (ops : list ValuesOp) : ∀ fm ds fm',
  lambdaOp_optDefaults ops fm = (Ok ds, fm') ↔ executed_once_each ops fm ds fm'.
Proof.
  induction ops as [|op ops IH]; intros fm ds fm'.
  - simpl. unfold ret. split.
    + intros [= <- <-]. constructor.
    + intros Hex. inversion Hex; subst. reflexivity.
  - cbn [lambdaOp_optDefaults]. unfold bind, ExecAndUnwrap_One_Any, ret. split.
    + destruct (ValuesOp_Exec op fm) as [[[|v [|w l]]|e|p] fm1] eqn:Hop;
        try (unfold errorpf, lift, throw; discriminate).
      destruct (lambdaOp_optDefaults ops fm1) as [[ds'|e|p] fm2] eqn:Hrest;
        try discriminate.
      intros [= <- <-]. econstructor; [exact Hop|]. apply IH, Hrest.
    + intros Hex. inversion Hex as [|? ? ? v fm1 vs ? Hop Hrest]; subst.
      rewrite Hop. apply IH in Hrest. rewrite Hrest. reflexivity.
Qed.

(** C5, as the code has it.  For every lambda, evaluating the lambda
    primary executes each option's default-value operation exactly once,
    in order, and the closure it yields stores the values obtained; so
    the defaults are evaluated once per definition, and a successful
    evaluation of the lambda is always of this form. *)
Theorem lambdaOp_defaults_at_definition (op : lambdaOp) (fm : Frame) :
  (∀ ds fm',
     executed_once_each (optDefaultOps op) fm ds fm' →
     lambdaOp_Invoke op fm = (Ok [types.Fn (closure_of op fm ds)], fm'))
  ∧ (∀ vs fm',
       lambdaOp_Invoke op fm = (Ok vs, fm') →
       ∃ ds, vs = [types.Fn (closure_of op fm ds)]
             ∧ executed_once_each (optDefaultOps op) fm ds fm').
Proof.
  split.
  - intros ds fm' Hex. apply lambdaOp_optDefaults_spec in Hex.
    unfold lambdaOp_Invoke, bind. rewrite Hex. reflexivity.
  - intros vs fm'. unfold lambdaOp_Invoke, bind, ret.
    destruct (lambdaOp_optDefaults (optDefaultOps op) fm) as [[ds|e|p] fm1] eqn:Hds;
      try discriminate.
    intros [= <- <-]. exists ds. split; [reflexivity|].
    apply lambdaOp_optDefaults_spec, Hds.
Qed.

Lemma lambdaOp_defaults_at_definition_witness :
  ∃ fm',
    lambdaOp_Invoke sample_lambda sample_frame
    = (Ok [types.Fn (closure_of sample_lambda sample_frame [types.String ""])], fm')
    ∧ store fm' !! counter_cell = Some (types.String "|").
Proof.
  eexists. split.
  - apply (lambdaOp_defaults_at_definition sample_lambda sample_frame).
    eapply executed_cons; [reflexivity | apply executed_nil].
  - reflexivity.
Defined.

(** Evaluating the lambda once, without ever invoking the closure, has
    executed the default-value operation once; evaluating it again
    executes it again, and the two closures hold different defaults. *)
Lemma lambda_defaults_not_per_invocation :
  ∃ fm1 fm2,
    lambdaOp_Invoke sample_lambda sample_frame
    = (Ok [types.Fn (closure_of sample_lambda sample_frame [types.String ""])], fm1)
    ∧ store sample_frame !! counter_cell = None
    ∧ store fm1 !! counter_cell = Some (types.String "|")
    ∧ store fm1 ≠ store sample_frame
    ∧ lambdaOp_Invoke sample_lambda fm1
      = (Ok [types.Fn (closure_of sample_lambda fm1 [types.String "|"])], fm2)
    ∧ store fm2 !! counter_cell = Some (types.String "||").
Proof.
  eexists. eexists.
  split; [reflexivity|]. split; [reflexivity|]. split; [reflexivity|].
  split; [|split; reflexivity].
  intros Heq.
  assert (Hc : (<[counter_cell := types.String "|"]> (∅ : gmap Var Value))
               !! counter_cell = (∅ : gmap Var Value) !! counter_cell)
    by (f_equal; exact Heq).
  rewrite lookup_insert_eq, lookup_empty in Hc. discriminate Hc.
Qed.

(** ** Claim C6: concatenating a string onto a pattern *)

Lemma slices_fresh_None (h : gmap nat (list glob.Segment)) :
  h !! fresh (dom h) = None.
Proof. apply not_elem_of_dom. apply is_fresh. Qed.

(** C6.  Concatenating a string onto a glob pattern yields a pattern
    whose segments are those of the operand followed by the string as a
    literal segment, held in a newly allocated array: no array that
    existed before is written, so every pattern reads as it did; flags,
    excludes and directory override are those of the operand; and the
    value obtained is the one [cat] computes. *)
Theorem cat_pattern_string_fresh (h : gmap nat (list glob.Segment))
    (lhs : slices.GlobPatternRef) (rhs : string) :
  let h' := (slices.cat_GlobPattern_String h lhs rhs).1 in
  let r := (slices.cat_GlobPattern_String h lhs rhs).2 in
  slices.view h' (slices.SegmentsRef r)
  = slices.view h (slices.SegmentsRef lhs) ++ [glob.Literal rhs]
  ∧ slices.FlagsRef r = slices.FlagsRef lhs
  ∧ slices.ButsRef r = slices.ButsRef lhs
  ∧ slices.DirOverrideRef r = slices.DirOverrideRef lhs
  ∧ h !! slices.array (slices.SegmentsRef r) = None
  ∧ (∀ a segs, h !! a = Some segs → h' !! a = Some segs)
  ∧ (∀ q, is_Some (h !! slices.array (slices.SegmentsRef q)) →
          slices.deref h' q = slices.deref h q)
  ∧ cat (types.Glob (slices.deref h lhs)) (types.String rhs)
    = Ok (types.Glob (slices.deref h' r)).
Proof.
  cbv zeta.
  unfold slices.cat_GlobPattern_String, slices.GlobPattern_append.
  cbn [fst snd slices.SegmentsRef slices.FlagsRef slices.ButsRef
       slices.DirOverrideRef slices.array].
  set (a := fresh (dom h)).
  set (content := slices.view h (slices.SegmentsRef lhs) ++ stringToSegments rhs).
  assert (Hview : slices.view (<[a:=content]> h)
                    (slices.mkSlice a (length content) (length content))
                  = content).
  { unfold slices.view. cbn [slices.len slices.array].
    rewrite lookup_insert_eq. simpl. apply firstn_all. }
  assert (Hfresh : h !! a = None) by apply slices_fresh_None.
  assert (Hframe : ∀ b segs, h !! b = Some segs →
                             (<[a:=content]> h) !! b = Some segs).
  { intros b segs Hb. rewrite lookup_insert_ne; [exact Hb|].
    intros ->. rewrite Hfresh in Hb. discriminate. }
  repeat split.
  - exact Hview.
  - exact Hfresh.
  - exact Hframe.
  - intros q [segs Hq]. unfold slices.deref, slices.view.
    rewrite (Hframe _ _ Hq), Hq. reflexivity.
  - unfold slices.deref at 2. cbn [slices.SegmentsRef slices.FlagsRef
      slices.ButsRef slices.DirOverrideRef].
    rewrite Hview. reflexivity.
Qed.

Lemma cat_pattern_string_fresh_witness :
  let h : gmap nat (list glob.Segment) :=
    {[ 7 := [glob.Wild 0 false; glob.Literal "spare"] ]} in
  let star := slices.mkGlobPatternRef (slices.mkSlice 7 1 2) "" 0 [] in
  let h' := (slices.cat_GlobPattern_String h star ".go").1 in
  let r := (slices.cat_GlobPattern_String h star ".go").2 in
  slices.view h' (slices.SegmentsRef r) = [glob.Wild 0 false; glob.Literal ".go"]
  ∧ h' !! 7 = Some [glob.Wild 0 false; glob.Literal "spare"]
  ∧ slices.deref h' star = slices.deref h star.
Proof.
  cbv zeta.
  pose proof (cat_pattern_string_fresh
                {[ 7 := [glob.Wild 0 false; glob.Literal "spare"] ]}
                (slices.mkGlobPatternRef (slices.mkSlice 7 1 2) "" 0 []) ".go")
    as Hcat.
  cbv zeta in Hcat.
  destruct Hcat as [Hview [_ [_ [_ [_ [Hframe [Hderef _]]]]]]].
  split; [exact Hview|]. split.
  - apply Hframe. reflexivity.
  - apply Hderef. eexists. reflexivity.
Defined.

(** ** Claim C8: map literals *)

Lemma Value_eqb_sym (a b : Value) : Value_eqb a b = Value_eqb b a.
Proof.
  destruct (Value_eqb a b) eqn:E1, (Value_eqb b a) eqn:E2; try reflexivity.
  - apply Value_eqb_spec in E1 as ->. rewrite Value_eqb_refl in E2. discriminate.
  - apply Value_eqb_spec in E2 as ->. rewrite Value_eqb_refl in E1. discriminate.
Qed.

Lemma hashmap_Index_Assoc (m : list (Value * Value)) (k v k' : Value) :
  hashmap.Index (hashmap.Assoc m k v) k'
  = if Value_eqb k k' then Some v else hashmap.Index m k'.
Proof.
  induction m as [|[k0 v0] m IH]; simpl.
  - reflexivity.
  - destruct (Value_eqb k0 k) eqn:E0; simpl.
    + apply Value_eqb_spec in E0 as ->.
      destruct (Value_eqb k k'); reflexivity.
    + destruct (Value_eqb k0 k') eqn:E1.
      * apply Value_eqb_spec in E1 as ->.
        rewrite Value_eqb_sym, E0. reflexivity.
      * exact IH.
Qed.

(** Keys stay unique. *)
Lemma hashmap_Assoc_keys (m : list (Value * Value)) (k v : Value) :
  NoDup m.*1 → NoDup (hashmap.Assoc m k v).*1
               ∧ ∀ k', k' ∈ (hashmap.Assoc m k v).*1 → k' = k ∨ k' ∈ m.*1.
Proof.
  induction m as [|[k0 v0] m IH]; simpl; intros Hnd.
  - split; [repeat constructor; apply not_elem_of_nil|].
    intros k' Hk'. apply list_elem_of_singleton in Hk'. left; exact Hk'.
  - apply NoDup_cons in Hnd as [Hk0 Hnd].
    destruct (Value_eqb k0 k) eqn:E0; simpl.
    + apply Value_eqb_spec in E0 as ->.
      split; [apply NoDup_cons; split; assumption|].
      intros k' Hk'. right. exact Hk'.
    + destruct (IH Hnd) as [Hnd' Hsub]. split.
      * apply NoDup_cons. split; [|exact Hnd'].
        intros Hin. destruct (Hsub _ Hin) as [->|Hin'].
        -- rewrite Value_eqb_refl in E0. discriminate.
        -- contradiction.
      * intros k' Hk'. apply elem_of_cons in Hk' as [->|Hk'].
        -- right. left.
        -- destruct (Hsub _ Hk') as [->|Hin]; [left; reflexivity|].
           right. right. exact Hin.
Qed.

Lemma assoc_all_Index (entries : list (Value * Value)) : ∀ m k,
  hashmap.Index (assoc_all m entries) k
  = match last_binding k entries with
    | Some v => Some v
    | None => hashmap.Index m k
    end.
Proof.
  induction entries as [|[k0 v0] entries IH]; intros m k; [reflexivity|].
  unfold assoc_all in *. cbn [foldl last_binding fst snd].
  rewrite IH. destruct (last_binding k entries); [reflexivity|].
  rewrite hashmap_Index_Assoc. destruct (Value_eqb k0 k); reflexivity.
Qed.

Lemma assoc_all_keys (entries : list (Value * Value)) : ∀ m,
  NoDup m.*1 → NoDup (assoc_all m entries).*1.
Proof.
  induction entries as [|[k0 v0] entries IH]; intros m Hnd; [exact Hnd|].
  unfold assoc_all in *. cbn [foldl fst snd].
  apply IH. apply hashmap_Assoc_keys, Hnd.
Qed.

Lemma assoc_all_app (e1 e2 : list (Value * Value)) m :
  assoc_all m (e1 ++ e2) = assoc_all (assoc_all m e1) e2.
Proof. unfold assoc_all. apply foldl_app. Qed.

(** The inner loop zips the keys with the values from position [j] on. *)
Lemma mapPairsOp_assoc_spec (keys : list Value) : ∀ j values m,
  j + length keys ≤ length values →
  mapPairsOp_assoc j keys values m
  = Ok (assoc_all m (zip keys (drop j values))).
Proof.
  induction keys as [|key keys IH]; intros j values m Hlen; [reflexivity|].
  simpl in Hlen. cbn [mapPairsOp_assoc].
  destruct (values !! j) as [value|] eqn:Hj;
    [|apply lookup_ge_None in Hj; lia].
  rewrite IH by lia.
  rewrite (drop_S _ _ _ Hj). reflexivity.
Qed.

(** The pairs from [i] on, when each has as many keys as values: the
    entries of the pairs are inserted in order. *)
Lemma mapPairsOp_pairs_ok (op : mapPairsOp) :
  ∀ rest vrest i m fm kvs fm',
    length vrest = length rest →
    (∀ j valuesOp, vrest !! j = Some valuesOp →
                   valuesOps op !! (i + j) = Some valuesOp) →
    Exec_pairs rest vrest fm = (Ok kvs, fm') →
    Forall counts_match kvs →
    mapPairsOp_pairs op i rest m fm
    = (Ok (assoc_all m (entries_of kvs)), fm').
Proof.
  induction rest as [|keysOp rest IH];
    intros vrest i m fm kvs fm' Hlen Hvals Hexec Hcount.
  - destruct vrest; [|discriminate Hlen].
    injection Hexec as <- <-. reflexivity.
  - destruct vrest as [|valuesOp vrest]; [discriminate Hlen|].
    cbn [mapPairsOp_pairs Exec_pairs] in *. unfold bind in *.
    destruct (ValuesOp_Exec keysOp fm) as [[keys|e|p] fm1]; try discriminate.
    replace (valuesOps op !! i) with (Some valuesOp)
      by (symmetry; rewrite <- (Nat.add_0_r i); apply Hvals; reflexivity).
    destruct (ValuesOp_Exec valuesOp fm1) as [[values|e|p] fm2]; try discriminate.
    destruct (Exec_pairs rest vrest fm2) as [[kvs'|e|p] fm3] eqn:Hrest;
      try discriminate.
    unfold ret in Hexec. injection Hexec as <- <-.
    apply Forall_cons in Hcount as [Hkv Hcount]. unfold counts_match in Hkv.
    simpl in Hkv.
    rewrite decide_False by (intros Hne; apply Hne; exact Hkv).
    unfold ret, lift.
    rewrite mapPairsOp_assoc_spec by (simpl; lia).
    rewrite drop_0.
    rewrite (IH vrest (S i) _ fm2 kvs' fm3).
    + unfold entries_of. rewrite fmap_cons. cbn [concat fst snd].
      rewrite assoc_all_app. reflexivity.
    + simpl in Hlen. lia.
    + intros j vo Hj. replace (S i + j) with (i + S j) by lia.
      apply Hvals. exact Hj.
    + exact Hrest.
    + exact Hcount.
Qed.

Lemma mapPairsOp_pairs_app (op : mapPairsOp) (l1 l2 : list ValuesOp) :
  ∀ i m fm,
    mapPairsOp_pairs op i (l1 ++ l2) m fm
    = bind (mapPairsOp_pairs op i l1 m)
        (λ m', mapPairsOp_pairs op (i + length l1) l2 m') fm.
Proof.
  induction l1 as [|keysOp l1 IH]; intros i m fm.
  - simpl. unfold bind, ret. rewrite Nat.add_0_r. reflexivity.
  - cbn [app mapPairsOp_pairs length]. unfold bind.
    destruct (ValuesOp_Exec keysOp fm) as [[keys|e|p] fm1]; try reflexivity.
    destruct (valuesOps op !! i) as [valuesOp|]; [|reflexivity].
    destruct (ValuesOp_Exec valuesOp fm1) as [[values|e|p] fm2]; try reflexivity.
    destruct (decide (length keys ≠ length values)) as [Hne|Heq].
    + destruct (begins op !! i), (ends op !! i); reflexivity.
    + unfold ret, lift.
      destruct (mapPairsOp_assoc 0 keys values m) as [m'|e|p]; try reflexivity.
      rewrite IH. unfold bind.
      replace (S i + length l1) with (i + S (length l1)) by lia.
      reflexivity.
Qed.

(** C8.  If the pairs before pair [i] evaluate with matching counts and
    the key and value expressions of pair [i] give sequences of unequal
    lengths, evaluation fails with the error stating both counts and the
    span of the pair; if all pairs evaluate with matching counts, the
    operation returns exactly one map value, in which every key has the
    value of its last entry, the entries being the pairs zipped
    positionally in order, and holds each key once. *)
Theorem mapPairsOp_correct (op : mapPairsOp) (fm : Frame) :
  (∀ i kvs fm0 keysOp valuesOp b e keys values fm1 fm2,
     keysOps op !! i = Some keysOp →
     valuesOps op !! i = Some valuesOp →
     begins op !! i = Some b →
     ends op !! i = Some e →
     Exec_pairs (take i (keysOps op)) (take i (valuesOps op)) fm
     = (Ok kvs, fm0) →
     Forall counts_match kvs →
     ValuesOp_Exec keysOp fm0 = (Ok keys, fm1) →
     ValuesOp_Exec valuesOp fm1 = (Ok values, fm2) →
     length keys ≠ length values →
     mapPairsOp_Invoke op fm
     = (throw (DiagError b e
                 (pretty (length keys) ++ " keys but " ++
                  pretty (length values) ++ " values")), fm2))
  ∧ (∀ kvs fm',
       length (valuesOps op) = length (keysOps op) →
       Exec_pairs (keysOps op) (valuesOps op) fm = (Ok kvs, fm') →
       Forall counts_match kvs →
       ∃ m, mapPairsOp_Invoke op fm = (Ok [types.Map m], fm')
            ∧ (∀ k, hashmap.Index m k = last_binding k (entries_of kvs))
            ∧ NoDup m.*1).
Proof.
  split.
  - intros i kvs fm0 keysOp valuesOp b e keys values fm1 fm2
      Hk Hv Hb He Hpre Hcount Hkeys Hvalues Hne.
    unfold mapPairsOp_Invoke, bind.
    rewrite <- (take_drop_middle _ _ _ Hk) at 1.
    rewrite mapPairsOp_pairs_app. unfold bind.
    pose proof (lookup_lt_Some _ _ _ Hk) as Hik.
    pose proof (lookup_lt_Some _ _ _ Hv) as Hiv.
    rewrite (mapPairsOp_pairs_ok op (take i (keysOps op))
               (take i (valuesOps op)) 0 hashmap.Empty fm kvs fm0);
      [| rewrite !length_take; lia
       | intros j vo Hj; simpl; apply lookup_take_Some in Hj as [Hj _]; exact Hj
       | exact Hpre | exact Hcount].
    rewrite length_take. replace (0 + i `min` length (keysOps op)) with i by lia.
    cbn [mapPairsOp_pairs]. unfold bind.
    rewrite Hkeys, Hv, Hvalues.
    rewrite decide_True by exact Hne.
    rewrite Hb, He. reflexivity.
  - intros kvs fm' Hlen Hexec Hcount.
    exists (assoc_all hashmap.Empty (entries_of kvs)).
    split; [|split].
    + unfold mapPairsOp_Invoke, bind.
      rewrite (mapPairsOp_pairs_ok op (keysOps op) (valuesOps op) 0
                 hashmap.Empty fm kvs fm' Hlen); try assumption.
      * reflexivity.
      * intros j vo Hj. exact Hj.
    + intros k. rewrite assoc_all_Index.
      destruct (last_binding k (entries_of kvs)); reflexivity.
    + apply assoc_all_keys. constructor.
Qed.

Lemma mapPairsOp_correct_witness :
  mapPairsOp_Invoke sample_mapPairs sample_frame
  = (throw (DiagError 1 9 "2 keys but 3 values"), mkFrame 5 9 (λ _ _, None) ∅)
  ∧ ∃ m, mapPairsOp_Invoke sample_mapPairs_collision sample_frame
         = (Ok [types.Map m], mkFrame 12 13 (λ _ _, None) ∅)
         ∧ hashmap.Index m (types.String "a") = Some (types.String "z")
         ∧ hashmap.Index m (types.String "b") = Some (types.String "y").
Proof.
  split.
  - destruct (mapPairsOp_correct sample_mapPairs sample_frame) as [Hbad _].
    eapply (Hbad 0 [] sample_frame _ _ 1%Z 9%Z
              [types.String "a"; types.String "b"]
              [types.String "x"; types.String "y"; types.String "z"]);
      try reflexivity.
    + constructor.
    + simpl. lia.
  - destruct (mapPairsOp_correct sample_mapPairs_collision sample_frame)
      as [_ Hgood].
    destruct (Hgood
                [([types.String "a"; types.String "b"],
                  [types.String "x"; types.String "y"]);
                 ([types.String "a"], [types.String "z"])]
                (mkFrame 12 13 (λ _ _, None) ∅))
      as [m [Hm [Hidx _]]].
    + reflexivity.
    + reflexivity.
    + repeat constructor.
    + exists m. split; [exact Hm|]. split; rewrite Hidx; reflexivity.
Defined.

(** ** Claim C1: compound expressions *)

Lemma cat_all_snoc (us : list Value) : ∀ v u,
  cat_all v (us ++ [u]) = rbind (cat_all v us) (λ w, cat w u).
Proof.
  induction us as [|u0 us IH]; intros v u; simpl.
  - destruct (cat v u); reflexivity.
  - destruct (cat v u0); simpl; [apply IH | reflexivity..].
Qed.

Lemma concat_of_snoc (pre : list Value) (a u w : Value) :
  concat_of pre a → cat a u = Ok w → concat_of (pre ++ [u]) w.
Proof.
  destruct pre as [|s0 rest]; [intros []|].
  simpl. intros Ha Hw. rewrite cat_all_snoc, Ha. exact Hw.
Qed.

Section selections.
Context {A : Type}.
Implicit Types (pres : list (list A)) (Ss : list (list A)).

Lemma continue_selections_nil pres : continue_selections pres [] = pres.
Proof.
  unfold continue_selections. induction pres as [|pre pres IH]; [reflexivity|].
  rewrite bind_cons, IH. simpl. rewrite app_nil_r. reflexivity.
Qed.

Lemma continue_selections_app pres1 pres2 Ss :
  continue_selections (pres1 ++ pres2) Ss
  = continue_selections pres1 Ss ++ continue_selections pres2 Ss.
Proof. unfold continue_selections. apply bind_app. Qed.

Lemma continue_selections_extend_one (pre : list A) (S0 : list A) Ss :
  (λ sel, pre ++ sel) <$> selections (S0 :: Ss)
  = continue_selections ((λ u, pre ++ [u]) <$> S0) Ss.
Proof.
  unfold continue_selections. cbn [selections].
  induction S0 as [|s S0 IH]; [reflexivity|].
  rewrite bind_cons, fmap_app, fmap_cons, bind_cons, IH. f_equal.
  rewrite <- list_fmap_compose. apply list_fmap_ext.
  intros i sel _. simpl. rewrite <- app_assoc. reflexivity.
Qed.

Lemma continue_selections_cons pres (S0 : list A) Ss :
  continue_selections pres (S0 :: Ss)
  = continue_selections (extend_selections pres S0) Ss.
Proof.
  induction pres as [|pre pres IH]; [reflexivity|].
  unfold extend_selections in *.
  rewrite bind_cons, continue_selections_app, <- IH.
  rewrite <- continue_selections_extend_one.
  unfold continue_selections. rewrite bind_cons. reflexivity.
Qed.

Lemma selections_continue (S0 : list A) Ss :
  selections (S0 :: Ss) = continue_selections ((λ s, [s]) <$> S0) Ss.
Proof.
  transitivity ((λ sel : list A, [] ++ sel) <$> selections (S0 :: Ss)).
  - symmetry. apply list_fmap_id.
  - exact (continue_selections_extend_one [] S0 Ss).
Qed.

Lemma length_bind_uniform {B : Type} (f : A → list B) (l : list A) n :
  (∀ x, length (f x) = n) → length (l ≫= f) = length l * n.
Proof.
  intros Hf. induction l as [|x l IH]; [reflexivity|].
  rewrite bind_cons, length_app, Hf, IH. simpl. reflexivity.
Qed.

Lemma selections_length Ss :
  length (selections Ss) = product_of_lengths Ss.
Proof.
  induction Ss as [|S0 Ss IH]; [reflexivity|].
  cbn [selections product_of_lengths foldr].
  rewrite (length_bind_uniform _ _ (length (selections Ss)))
    by (intros x; apply length_fmap).
  rewrite IH. reflexivity.
Qed.
End selections.

(** One outer product extends every prefix by every element of the new
    sequence, in row-major order. *)
Lemma outerProduct_extends (pres : list (list Value)) (acc S0 acc' : list Value) :
  Forall2 concat_of pres acc →
  outerProduct acc S0 cat = Ok acc' →
  Forall2 concat_of (extend_selections pres S0) acc'.
Proof.
  rewrite outerProduct_row_major, result_mapM_Ok.
  intros Hpres. revert acc'.
  induction Hpres as [|pre a pres acc Hpre _ IH]; intros acc' Hprod.
  - inversion Hprod. constructor.
  - cbn [row_major] in Hprod.
    apply Forall2_app_inv_l in Hprod as [k1 [k2 [Hrow [Hrest ->]]]].
    unfold extend_selections. rewrite bind_cons.
    apply Forall2_app; [|apply IH, Hrest].
    apply Forall2_fmap_l in Hrow. apply Forall2_fmap_l.
    eapply Forall2_impl; [exact Hrow|].
    intros u w Hw. simpl in Hw. exact (concat_of_snoc pre a u w Hpre Hw).
Qed.

Lemma fold_outerProduct_continues (Ss : list (list Value)) :
  ∀ pres acc ws,
    Forall2 concat_of pres acc →
    fold_outerProduct acc Ss = Ok ws →
    Forall2 concat_of (continue_selections pres Ss) ws.
Proof.
  induction Ss as [|S0 Ss IH]; intros pres acc ws Hpres Hfold.
  - injection Hfold as <-. rewrite continue_selections_nil. exact Hpres.
  - cbn [fold_outerProduct] in Hfold.
    destruct (outerProduct acc S0 cat) as [acc'| |] eqn:Hprod; try discriminate.
    simpl in Hfold. rewrite continue_selections_cons.
    apply (IH _ acc'); [|exact Hfold].
    apply (outerProduct_extends pres acc S0 acc' Hpres Hprod).
Qed.

(** The fold is ordered lexicographically: its values are the
    concatenations of the selections, the earliest sequence varying
    slowest, and their number is the product of the lengths. *)
Lemma fold_outerProduct_lexicographic (S0 : list Value) Ss ws :
  fold_outerProduct S0 Ss = Ok ws →
  Forall2 concat_of (selections (S0 :: Ss)) ws
  ∧ length ws = product_of_lengths (S0 :: Ss).
Proof.
  intros Hfold.
  assert (Hsel : Forall2 concat_of (selections (S0 :: Ss)) ws).
  { rewrite selections_continue.
    apply (fold_outerProduct_continues Ss _ S0); [|exact Hfold].
    apply Forall2_fmap_l. apply Forall_Forall2_diag, Forall_forall.
    intros s _. reflexivity. }
  split; [exact Hsel|].
  rewrite <- (Forall2_length _ _ _ Hsel). apply selections_length.
Qed.

Lemma compoundOp_accumulate_fold (rest : list ValuesOp) :
  ∀ vs fm Ss fm' ws,
    Exec_all rest fm = (Ok Ss, fm') →
    fold_outerProduct vs Ss = Ok ws →
    compoundOp_accumulate rest vs fm = (Ok ws, fm').
Proof.
  induction rest as [|subop rest IH]; intros vs fm Ss fm' ws Hexec Hfold.
  - injection Hexec as <- <-. injection Hfold as <-. reflexivity.
  - cbn [Exec_all compoundOp_accumulate] in *. unfold bind in *.
    destruct (ValuesOp_Exec subop fm) as [[us|e|p] fm1]; try discriminate.
    destruct (Exec_all rest fm1) as [[Ss'|e|p] fm2] eqn:Hrest; try discriminate.
    unfold ret in Hexec. injection Hexec as <- <-.
    cbn [fold_outerProduct] in Hfold. unfold lift.
    destruct (outerProduct vs us cat) as [vs'| |]; try discriminate.
    simpl in Hfold. exact (IH vs' fm1 Ss' fm2 ws Hrest Hfold).
Qed.

Lemma cat_all_strings (ts : list string) : ∀ s0,
  cat_all (types.String s0) (types.String <$> ts)
  = Ok (types.String (s0 ++ join_texts ts)).
Proof.
  induction ts as [|t ts IH]; intros s0.
  - simpl. rewrite append_nil_r. reflexivity.
  - rewrite fmap_cons. cbn [cat_all cat rbind]. rewrite IH.
    cbn [join_texts foldr]. rewrite append_assoc. reflexivity.
Qed.

Lemma outerProduct_strings (A B : list string) :
  outerProduct (types.String <$> A) (types.String <$> B) cat
  = Ok (types.String <$> (a ← A; (λ b, (a ++ b)%string) <$> B)).
Proof.
  rewrite outerProduct_row_major.
  induction A as [|a A IH]; [reflexivity|].
  rewrite fmap_cons. cbn [row_major].
  rewrite result_mapM_app, IH, result_mapM_fmap. cbn [fst snd].
  assert (Hrow : result_mapM (λ x, cat (types.String a) x) (types.String <$> B)
                 = Ok (types.String <$> ((λ b, (a ++ b)%string) <$> B))).
  { clear IH. induction B as [|b B IHB]; [reflexivity|].
    rewrite !fmap_cons. cbn [result_mapM]. cbn beta.
    change (cat (types.String a) (types.String b))
      with (@Ok Value (types.String (a ++ b))).
    cbn [rbind]. rewrite IHB. reflexivity. }
  rewrite Hrow. cbn [rbind]. rewrite bind_cons, fmap_app. reflexivity.
Qed.

Lemma fold_outerProduct_strings (Ts : list (list string)) :
  ∀ T0 : list string,
  ∃ X : list string,
    fold_outerProduct (text_values T0) (text_values <$> Ts)
    = Ok (text_values X).
Proof.
  induction Ts as [|T Ts IH]; intros T0.
  - exists T0. reflexivity.
  - rewrite fmap_cons. cbn [fold_outerProduct]. unfold text_values at 1 2.
    rewrite outerProduct_strings. cbn [rbind]. apply IH.
Qed.

Lemma selections_fmap {A B : Type} (f : A → B) (Ss : list (list A)) :
  selections (fmap (M:=list) f <$> Ss) = fmap (M:=list) f <$> selections Ss.
Proof.
  induction Ss as [|S0 Ss IH]; [reflexivity|].
  rewrite fmap_cons. cbn [selections]. rewrite IH.
  induction S0 as [|s S0 IHS]; [reflexivity|].
  rewrite fmap_cons, !bind_cons, fmap_app, IHS. f_equal.
  rewrite <- !list_fmap_compose. apply list_fmap_ext.
  intros i sel _. reflexivity.
Qed.

Lemma Forall2_function {A B : Type} (f : A → B) (l : list A) (k : list B) :
  Forall2 (λ x y, y = f x) l k → k = f <$> l.
Proof.
  induction 1 as [|x y l k -> _ IH]; [reflexivity|].
  rewrite fmap_cons, IH. reflexivity.
Qed.

Lemma fold_outerProduct_texts (T0 : list string) (Ts : list (list string)) :
  fold_outerProduct (text_values T0) (text_values <$> Ts)
  = Ok (text_values (join_texts <$> selections (T0 :: Ts))).
Proof.
  destruct (fold_outerProduct_strings Ts T0) as [X HX].
  rewrite HX. f_equal.
  destruct (fold_outerProduct_lexicographic _ _ _ HX) as [Hsel _].
  change (text_values T0 :: (text_values <$> Ts))
    with (fmap (M:=list) types.String <$> (T0 :: Ts)) in Hsel.
  rewrite selections_fmap in Hsel.
  rewrite Forall2_fmap_l in Hsel.
  unfold text_values. rewrite <- list_fmap_compose.
  apply Forall2_function.
  eapply Forall2_impl; [exact Hsel|].
  intros sel w. destruct sel as [|t0 rest]; [intros []|].
  unfold compose. rewrite fmap_cons. cbn [concat_of]. rewrite cat_all_strings.
  intros [= <-]. reflexivity.
Qed.

Lemma existsb_isGlobPattern_strings (X : list string) :
  existsb isGlobPattern (text_values X) = false.
Proof.
  induction X as [|x X IH]; [reflexivity|].
  unfold text_values in *. rewrite fmap_cons. simpl. exact IH.
Qed.

Section compound.
Context `{Externals}.

Lemma compoundOp_Invoke_fold (op : compoundOp) (fm fm' : Frame) S0 Ss ws :
  tilde op = false →
  Exec_all (subops op) fm = (Ok (S0 :: Ss), fm') →
  fold_outerProduct S0 Ss = Ok ws →
  existsb isGlobPattern ws = false →
  compoundOp_Invoke op fm = (Ok ws, fm').
Proof.
  intros Htilde Hexec Hfold Hglob. unfold compoundOp_Invoke.
  destruct (subops op) as [|subop0 rest]; [discriminate Hexec|].
  cbn [Exec_all] in Hexec. unfold bind in *.
  destruct (ValuesOp_Exec subop0 fm) as [[vs|e|p] fm1]; try discriminate.
  destruct (Exec_all rest fm1) as [[Ss'|e|p] fm2] eqn:Hrest; try discriminate.
  unfold ret in Hexec. injection Hexec as -> -> ->.
  rewrite (compoundOp_accumulate_fold rest S0 fm1 Ss fm' ws Hrest Hfold).
  rewrite Htilde. unfold ret. rewrite Hglob. reflexivity.
Qed.

(** C1, as the code has it.  For every compound without a leading
    tilde whose sub-expressions evaluate to the sequences S0, ..., Sn:
    if the left-to-right fold of [outerProduct] with [cat] over them
    succeeds and holds no glob pattern, evaluation yields exactly that
    fold, whose length is the product of the |Si| and whose values are
    the concatenations of the selections in lexicographic order, the
    earliest sub-expression varying slowest; when all the values are
    strings this is always so; in particular, literal sub-expressions
    a1, a2 and b1, b2, b3 yield a1b1, a1b2, a1b3, a2b1, a2b2, a2b3. *)
Theorem compoundOp_Invoke_correct :
  (∀ (op : compoundOp) (fm fm' : Frame) S0 Ss ws,
     tilde op = false →
     Exec_all (subops op) fm = (Ok (S0 :: Ss), fm') →
     fold_outerProduct S0 Ss = Ok ws →
     existsb isGlobPattern ws = false →
     compoundOp_Invoke op fm = (Ok ws, fm')
     ∧ length ws = product_of_lengths (S0 :: Ss)
     ∧ Forall2 concat_of (selections (S0 :: Ss)) ws)
  ∧ (∀ (op : compoundOp) (fm fm' : Frame) T0 Ts,
       tilde op = false →
       Exec_all (subops op) fm = (Ok (text_values <$> (T0 :: Ts)), fm') →
       compoundOp_Invoke op fm
       = (Ok (text_values (join_texts <$> selections (T0 :: Ts))), fm'))
  ∧ (∀ (a1 a2 b1 b2 b3 : string) (fm : Frame) (p q p' q' : Z),
       compoundOp_Invoke
         (mkCompoundOp false
            [mkValuesOp
               (literalValues [types.String a1; types.String a2]) p q;
             mkValuesOp
               (literalValues
                  [types.String b1; types.String b2; types.String b3]) p' q'])
         fm
       = (Ok [types.String (a1 ++ b1); types.String (a1 ++ b2);
              types.String (a1 ++ b3); types.String (a2 ++ b1);
              types.String (a2 ++ b2); types.String (a2 ++ b3)],
          mkFrame p' q' (scope fm) (store fm))).
Proof.
  split; [|split].
  - intros op fm fm' S0 Ss ws Htilde Hexec Hfold Hglob.
    split; [exact (compoundOp_Invoke_fold op fm fm' S0 Ss ws Htilde Hexec Hfold Hglob)|].
    destruct (fold_outerProduct_lexicographic S0 Ss ws Hfold) as [Hsel Hlen].
    split; assumption.
  - intros op fm fm' T0 Ts Htilde Hexec.
    rewrite fmap_cons in Hexec.
    apply (compoundOp_Invoke_fold op fm fm' _ _ _ Htilde Hexec).
    + apply fold_outerProduct_texts.
    + apply existsb_isGlobPattern_strings.
  - intros a1 a2 b1 b2 b3 fm p q p' q'. reflexivity.
Qed.
End compound.

Lemma compoundOp_Invoke_correct_witness :
  compoundOp_Invoke (H := sample_externals)
    (mkCompoundOp false
       [mkValuesOp (literalValues [types.String "a"; types.String "b"]) 0 1;
        mkValuesOp (literalValues [types.String "x"; types.String "y"]) 1 2;
        mkValuesOp (literalValues [types.String "1"; types.String "2"]) 2 3])
    sample_frame
  = (Ok (text_values
           ["ax1"; "ax2"; "ay1"; "ay2"; "bx1"; "bx2"; "by1"; "by2"]),
     mkFrame 2 3 (λ _ _, None) ∅)
  ∧ length (text_values
              ["ax1"; "ax2"; "ay1"; "ay2"; "bx1"; "bx2"; "by1"; "by2"]) = 8.
Proof.
  destruct (compoundOp_Invoke_correct (H := sample_externals))
    as [Hfold [Htexts _]].
  split.
  - apply (Htexts _ sample_frame _ ["a"; "b"] [["x"; "y"]; ["1"; "2"]]);
      reflexivity.
  - refine (proj1 (proj2 (Hfold
                (mkCompoundOp false
                   [mkValuesOp (literalValues [types.String "a"; types.String "b"]) 0 1;
                    mkValuesOp (literalValues [types.String "x"; types.String "y"]) 1 2;
                    mkValuesOp (literalValues [types.String "1"; types.String "2"]) 2 3])
                sample_frame (mkFrame 2 3 (λ _ _, None) ∅)
                [types.String "a"; types.String "b"]
                [[types.String "x"; types.String "y"];
                 [types.String "1"; types.String "2"]]
                (text_values
                   ["ax1"; "ax2"; "ay1"; "ay2"; "bx1"; "bx2"; "by1"; "by2"])
                _ _ _ _))); reflexivity.
Defined.

(** Three compounds whose sub-expressions all succeed.  A single
    wildcard: the fold is the pattern itself, one value, but evaluation
    expands it against the file system and yields the two matches.  A
    leading tilde: the fold is the string, but evaluation yields its
    tilde expansion.  A string next to a boolean: the fold, and with it
    the evaluation, fails in [cat], and there is no result. *)
Lemma compound_not_always_fold :
  (Exec_all [mkValuesOp (literalValues [types.Glob star]) 0 1] sample_frame
   = (Ok [[types.Glob star]], mkFrame 0 1 (λ _ _, None) ∅)
   ∧ fold_outerProduct [types.Glob star] [] = Ok [types.Glob star]
   ∧ product_of_lengths [[types.Glob star]] = 1
   ∧ compoundOp_Invoke (H := sample_externals)
       (mkCompoundOp false [mkValuesOp (literalValues [types.Glob star]) 0 1])
       sample_frame
     = (Ok [types.String "a.go"; types.String "b.go"],
        mkFrame 0 1 (λ _ _, None) ∅)
   ∧ length [types.String "a.go"; types.String "b.go"]
     ≠ product_of_lengths [[types.Glob star]])
  ∧ (fold_outerProduct [types.String "alice/docs"] []
     = Ok [types.String "alice/docs"]
     ∧ compoundOp_Invoke (H := sample_externals)
         (mkCompoundOp true [mkValuesOp (literalStr "alice/docs") 1 11])
         sample_frame
       = (Ok [types.String "/home/alice/docs"], mkFrame 1 11 (λ _ _, None) ∅))
  ∧ (Exec_all [mkValuesOp (literalStr "a") 0 1;
               mkValuesOp (literalValues [types.Bool true]) 1 6] sample_frame
     = (Ok [[types.String "a"]; [types.Bool true]], mkFrame 1 6 (λ _ _, None) ∅)
     ∧ compoundOp_Invoke (H := sample_externals)
         (mkCompoundOp false
            [mkValuesOp (literalStr "a") 0 1;
             mkValuesOp (literalValues [types.Bool true]) 1 6])
         sample_frame
       = (Fail (ErrorString "unsupported concat: string and bool"),
          mkFrame 1 6 (λ _ _, None) ∅)).
Proof.
  split; [|split].
  - repeat split; try reflexivity. simpl. lia.
  - split; reflexivity.
  - split; reflexivity.
Qed.

(** * Further properties *)

(** A byte does not occur in a given text. *)
Ltac byte_not_in :=
  let Hin := fresh "Hin" in
  vm_compute; intros Hin;
  repeat (apply elem_of_cons in Hin as [Hin|Hin]; [discriminate Hin|]);
  inversion Hin.

(** ** The outer product *)

(** X1.  The outer product distributes over appending on its left
    operand: the product of [vs1 ++ vs2] with [us] is the product of
    [vs1] with [us] followed by the product of [vs2] with [us], and it
    fails as the first of the two that fails. *)
Theorem outerProduct_app_l (vs1 vs2 us : list Value)
    (f : Value → Value → result Value) :
  outerProduct (vs1 ++ vs2) us f
  = rbind (outerProduct vs1 us f)
      (λ ws1, rbind (outerProduct vs2 us f) (λ ws2, Ok (ws1 ++ ws2))).
Proof.
  rewrite !outerProduct_refines. unfold outerProduct_spec.
  rewrite result_mapM_app.
  destruct (result_mapM _ vs1) as [r1| |]; simpl; try reflexivity.
  destruct (result_mapM _ vs2) as [r2| |]; simpl; try reflexivity.
  rewrite concat_app. reflexivity.
Qed.

(** X2.  With an empty right operand the outer product is empty for
    every left operand, and the combine function is not called (it may
    fail on every pair); with a single value on the left it is the row
    of that value. *)
Theorem outerProduct_empty_r (vs us : list Value) (v : Value)
    (f : Value → Value → result Value) :
  outerProduct vs [] f = Ok []
  ∧ outerProduct [v] us f = result_mapM (f v) us.
Proof.
  rewrite !outerProduct_refines. unfold outerProduct_spec. split.
  - induction vs as [|v0 vs IH]; [reflexivity|].
    cbn [result_mapM rbind] in *.
    destruct (result_mapM _ vs) as [rows| |]; simpl in *;
      [exact IH | discriminate | discriminate].
  - cbn [result_mapM rbind].
    destruct (result_mapM (f v) us) as [row| |]; simpl; try reflexivity.
    rewrite app_nil_r. reflexivity.
Qed.

(** ** Concatenation onto a pattern *)

(** X3.  When the right operand of [cat] is a pattern, only its first
    segment, its flags and its exclusions are used: further segments and
    its directory override are dropped; a pattern without segments makes
    [cat] panic in the runtime; and the result of concatenating two
    patterns has one segment more than the left one, the flags of both
    or-ed, the exclusions of both in order and the directory override of
    the left one. *)
Theorem cat_pattern_rhs :
  (∀ lhs r r',
     Segments r !! 0 = Segments r' !! 0 →
     Flags r = Flags r' → Buts r = Buts r' →
     cat lhs (types.Glob r) = cat lhs (types.Glob r'))
  ∧ (∀ lhs r,
       concatenable lhs (types.Glob r) = true →
       Segments r = [] →
       cat lhs (types.Glob r) = index_out_of_range)
  ∧ (∀ l r w,
       cat (types.Glob l) (types.Glob r) = Ok w →
       ∃ g seg0,
         w = types.Glob g
         ∧ Segments r !! 0 = Some seg0
         ∧ Segments g = Segments l ++ [seg0]
         ∧ Flags g = Z.lor (Flags l) (Flags r)
         ∧ Buts g = Buts l ++ Buts r
         ∧ glob.DirOverride (Pattern g) = glob.DirOverride (Pattern l))
  ∧ (∀ s r w,
       cat (types.String s) (types.Glob r) = Ok w →
       ∃ seg0,
         Segments r !! 0 = Some seg0
         ∧ w = types.Glob
                 (mkGlobPattern (glob.mkPattern [glob.Literal s; seg0] "")
                    (Flags r) (Buts r))).
Proof.
  split; [|split; [|split]].
  - intros lhs r r' Hseg Hflags Hbuts.
    destruct lhs; cbn [cat unsupported_concat Kind]; try reflexivity;
      rewrite Hseg, Hflags, Hbuts; reflexivity.
  - intros lhs r Hc Hnil.
    destruct lhs; try discriminate; cbn [cat]; rewrite Hnil; reflexivity.
  - intros l r w Hcat. cbn [cat] in Hcat.
    destruct (Segments r !! 0) as [seg0|] eqn:Hseg; [|discriminate].
    injection Hcat as <-. eexists _, seg0.
    repeat split; reflexivity.
  - intros s r w Hcat. cbn [cat] in Hcat.
    destruct (Segments r !! 0) as [seg0|] eqn:Hseg; [|discriminate].
    injection Hcat as <-. exists seg0. split; reflexivity.
Qed.

Lemma cat_pattern_rhs_witness :
  cat (types.String "a")
    (types.Glob (mkGlobPattern (glob.mkPattern [] "") 0 []))
  = index_out_of_range.
Proof.
  apply (proj1 (proj2 cat_pattern_rhs)); reflexivity.
Defined.

(** X4.  A concatenation that succeeds gives a pattern exactly when one
    of the operands is a pattern, and a string otherwise. *)
Theorem cat_result_kind (lhs rhs w : Value) :
  cat lhs rhs = Ok w →
  isGlobPattern w = isGlobPattern lhs || isGlobPattern rhs
  ∧ Kind w = (if isGlobPattern lhs || isGlobPattern rhs
              then "glob-pattern" else "string").
Proof.
  intros Hcat.
  destruct lhs, rhs; cbn [cat] in Hcat; try discriminate.
  - injection Hcat as <-. split; reflexivity.
  - destruct (Segments gp !! 0); [|discriminate].
    injection Hcat as <-. split; reflexivity.
  - injection Hcat as <-. split; reflexivity.
  - destruct (Segments gp0 !! 0); [|discriminate].
    injection Hcat as <-. split; reflexivity.
Qed.

Lemma cat_result_kind_witness :
  isGlobPattern (types.Glob (GlobPattern_append star [glob.Literal ".go"]))
  = isGlobPattern (types.Glob star) || isGlobPattern (types.String ".go")
  ∧ Kind (types.Glob (GlobPattern_append star [glob.Literal ".go"]))
    = (if isGlobPattern (types.Glob star) || isGlobPattern (types.String ".go")
       then "glob-pattern" else "string").
Proof.
  apply (cat_result_kind (types.Glob star) (types.String ".go")). reflexivity.
Defined.

(** ** Tilde expansion of patterns *)

Lemma rbind_Ok_Panic {A B : Type} (r : result A) (k : A → B) (p : PanicValue) :
  rbind r (λ a, Ok (k a)) = Panic p → r = Panic p.
Proof. destruct r; simpl; congruence. Qed.

Section tilde_patterns.
Context `{Externals}.

(** X5.  Tilde expansion of a pattern whose first segment is the literal
    user/rest (user without a path separator) replaces that segment by
    the literal made of the home directory of user, the separator and
    rest, by plain concatenation, and keeps everything else; when the
    home directory cannot be found, that failure is thrown. *)
Theorem doTilde_pattern_literal (gp : GlobPattern) (user rest : string)
    (more : list glob.Segment) :
  Segments gp = glob.Literal (user ++ "/" ++ rest) :: more →
  "/"%char ∉ list_ascii_of_string user →
  (∀ dir, GetHome user = Ok dir →
     doTilde (types.Glob gp)
     = Ok (types.Glob
             (mkGlobPattern
                (glob.mkPattern
                   (glob.Literal (dir ++ "/" ++ rest) :: more)
                   (glob.DirOverride (Pattern gp)))
                (Flags gp) (Buts gp))))
  ∧ (∀ e, GetHome user = Fail e → doTilde (types.Glob gp) = throw e).
Proof.
  intros Hsegs Hno.
  assert (Hidx : strings_Index (user ++ "/" ++ rest) "/"
                 = Z.of_nat (String.length user)).
  { unfold strings_Index.
    change (user ++ "/" ++ rest)%string
      with (user ++ String.String "/" rest)%string.
    rewrite (strings_Index_from_first "/" user rest 0 Hno). lia. }
  assert (Hdo : doTilde (types.Glob gp)
                = rbind (mustGetHome user)
                    (λ dir,
                       Ok (types.Glob
                             (mkGlobPattern
                                (glob.mkPattern
                                   (glob.Literal (dir ++ "/" ++ rest) :: more)
                                   (glob.DirOverride (Pattern gp)))
                                (Flags gp) (Buts gp))))).
  { unfold doTilde. rewrite Hsegs. cbn [length lookup list_lookup].
    rewrite decide_False by discriminate.
    rewrite Hidx. rewrite decide_False by lia.
    rewrite Nat2Z.id, slice_to_app, slice_from_app. reflexivity. }
  rewrite Hdo. unfold mustGetHome. split.
  - intros dir ->. reflexivity.
  - intros e ->. reflexivity.
Qed.

(** X6.  Tilde expansion of a pattern, when it succeeds, gives a pattern
    with the same number of segments, the same segments after the first,
    the same flags and the same exclusions; when the first segment is a
    path separator the segments are all kept and the directory override
    becomes the home directory of the invoking user, and otherwise the
    directory override is kept. *)
Theorem doTilde_pattern_preserves (gp : GlobPattern) (w : Value) :
  doTilde (types.Glob gp) = Ok w →
  ∃ g, w = types.Glob g
       ∧ length (Segments g) = length (Segments gp)
       ∧ drop 1 (Segments g) = drop 1 (Segments gp)
       ∧ Flags g = Flags gp
       ∧ Buts g = Buts gp
       ∧ (Segments gp !! 0 = Some glob.Slash →
          Segments g = Segments gp
          ∧ GetHome "" = Ok (glob.DirOverride (Pattern g)))
       ∧ (Segments gp !! 0 ≠ Some glob.Slash →
          glob.DirOverride (Pattern g) = glob.DirOverride (Pattern gp)).
Proof.
  unfold doTilde. intros Hdo.
  destruct (decide (length (Segments gp) = 0)); [discriminate|].
  destruct (Segments gp !! 0) as [[s| |t h]|] eqn:Hseg; try discriminate.
  - destruct (decide (strings_Index s "/" = (-1)%Z)); [discriminate|].
    unfold mustGetHome in Hdo.
    destruct (GetHome _) as [dir| |]; try discriminate.
    injection Hdo as <-. eexists. split; [reflexivity|].
    unfold Segments at 1 3. cbn [Pattern glob.Segments Flags Buts glob.DirOverride].
    repeat split.
    + apply length_insert.
    + destruct (Segments gp); reflexivity.
    + discriminate.
    + discriminate.
  - unfold mustGetHome in Hdo.
    destruct (GetHome "") as [dir| |] eqn:Hhome; try discriminate.
    injection Hdo as <-. eexists. split; [reflexivity|].
    repeat split; try reflexivity. intros Hne. contradiction.
Qed.

(** X7.  Tilde expansion never returns an error: every failure is
    thrown.  A pattern without segments throws the bad-pattern error, a
    pattern that starts with a wildcard throws "cannot determine user
    name", and a value that is neither a string nor a pattern throws
    "tilde doesn't work on value of type" with its kind, all three
    without asking for a home directory; any other failure is the one of
    looking up the home directory. *)
Theorem doTilde_failures :
  (∀ v e, doTilde v ≠ Fail e)
  ∧ (∀ gp, Segments gp = [] →
       doTilde (types.Glob gp) = throw ErrBadGlobPattern)
  ∧ (∀ gp t h more, Segments gp = glob.Wild t h :: more →
       doTilde (types.Glob gp) = throw ErrCannotDetermineUsername)
  ∧ (∀ v, concatenable v v = false →
       doTilde v
       = throw (ErrorString
                  ("tilde doesn't work on value of type " ++ Kind v)))
  ∧ (∀ v p, doTilde v = Panic p →
       p = Thrown ErrBadGlobPattern
       ∨ p = Thrown ErrCannotDetermineUsername
       ∨ p = Thrown (ErrorString
                       ("tilde doesn't work on value of type " ++ Kind v))
       ∨ ∃ uname, mustGetHome uname = Panic p).
Proof.
  split; [|split; [|split; [|split]]].
  - intros v e. unfold doTilde, mustGetHome.
    destruct v as [s| | | |gp| |]; try discriminate.
    + destruct (decide _); destruct (GetHome _); discriminate.
    + destruct (decide _); [discriminate|].
      destruct (Segments gp !! 0) as [[s| |t h]|]; try discriminate.
      * destruct (decide _); [discriminate|].
        destruct (GetHome _); discriminate.
      * destruct (GetHome _); discriminate.
  - intros gp Hnil. unfold doTilde. rewrite Hnil. reflexivity.
  - intros gp t h more Hsegs. unfold doTilde. rewrite Hsegs. reflexivity.
  - intros v Hv. destruct v; try discriminate; reflexivity.
  - intros v p. unfold doTilde.
    destruct v as [s| | | |gp| |];
      try (intros [= <-]; right; right; left; reflexivity).
    + destruct (decide _); intros Hp.
      * right; right; right. eexists. exact (rbind_Ok_Panic _ _ _ Hp).
      * right; right; right. eexists. exact (rbind_Ok_Panic _ _ _ Hp).
    + destruct (decide _); [intros [= <-]; left; reflexivity|].
      destruct (Segments gp !! 0) as [[s| |t h]|] eqn:Hseg.
      * destruct (decide _); [intros [= <-]; right; left; reflexivity|].
        intros Hp. right; right; right. eexists.
        exact (rbind_Ok_Panic _ _ _ Hp).
      * intros Hp. right; right; right. eexists.
        exact (rbind_Ok_Panic _ _ _ Hp).
      * intros [= <-]; right; left; reflexivity.
      * destruct (Segments gp); [contradiction | discriminate].
Qed.

End tilde_patterns.

Lemma doTilde_pattern_literal_witness :
  @doTilde sample_externals
    (types.Glob
       (mkGlobPattern
          (glob.mkPattern [glob.Literal "alice/src"; glob.Wild 0 false] "")
          0 []))
  = Ok (types.Glob
          (mkGlobPattern
             (glob.mkPattern
                [glob.Literal "/home/alice/src"; glob.Wild 0 false] "")
             0 [])).
Proof.
  refine (proj1 (@doTilde_pattern_literal sample_externals
                   (mkGlobPattern
                      (glob.mkPattern
                         [glob.Literal "alice/src"; glob.Wild 0 false] "")
                      0 [])
                   "alice" "src" [glob.Wild 0 false] _ _) "/home/alice" _).
  - reflexivity.
  - byte_not_in.
  - reflexivity.
Defined.

Lemma doTilde_pattern_preserves_witness :
  ∃ g, types.Glob
         (mkGlobPattern
            (glob.mkPattern [glob.Slash; glob.Wild 0 false] "/home/me") 0 [])
       = types.Glob g
       ∧ length (Segments g) = 2
       ∧ drop 1 (Segments g) = [glob.Wild 0 false]
       ∧ Flags g = 0%Z
       ∧ Buts g = []
       ∧ (Some glob.Slash = Some glob.Slash →
          Segments g = [glob.Slash; glob.Wild 0 false]
          ∧ @GetHome sample_externals ""
            = Ok (glob.DirOverride (Pattern g)))
       ∧ (Some glob.Slash ≠ Some glob.Slash →
          glob.DirOverride (Pattern g) = "").
Proof.
  apply (@doTilde_pattern_preserves sample_externals
           (mkGlobPattern
              (glob.mkPattern [glob.Slash; glob.Wild 0 false] "") 0 [])).
  reflexivity.
Defined.

Lemma doTilde_failures_witness :
  @doTilde sample_externals (types.Glob star)
  = throw ErrCannotDetermineUsername.
Proof.
  apply (proj1 (proj2 (proj2 (@doTilde_failures sample_externals)))
           star 0%Z false []).
  reflexivity.
Defined.

(** ** Evaluation of compounds: the whole pipeline *)

Lemma fold_outerProduct_nil (Ss : list (list Value)) :
  fold_outerProduct [] Ss = Ok [].
Proof. induction Ss as [|S0 Ss IH]; [reflexivity | exact IH]. Qed.

Lemma product_of_lengths_nil {A : Type} (Ss : list (list A)) :
  [] ∈ Ss → product_of_lengths Ss = 0.
Proof.
  induction Ss as [|S0 Ss IH]; intros Hin; [inversion Hin|].
  unfold product_of_lengths in *. cbn [foldr].
  apply elem_of_cons in Hin as [<-|Hin]; [reflexivity|].
  rewrite (IH Hin). lia.
Qed.

Lemma compoundOp_accumulate_app (l1 l2 : list ValuesOp) : ∀ vs fm,
  compoundOp_accumulate (l1 ++ l2) vs fm
  = bind (compoundOp_accumulate l1 vs)
      (λ vs', compoundOp_accumulate l2 vs') fm.
Proof.
  induction l1 as [|subop l1 IH]; intros vs fm; [reflexivity|].
  cbn [app compoundOp_accumulate]. unfold bind, lift in *.
  destruct (ValuesOp_Exec subop fm) as [[us|e|p] fm1]; try reflexivity.
  destruct (outerProduct vs us cat) as [vs'|e|p]; try reflexivity.
  apply IH.
Qed.

Lemma Exec_all_app (l1 l2 : list ValuesOp) : ∀ fm,
  Exec_all (l1 ++ l2) fm
  = bind (Exec_all l1)
      (λ Ss1, bind (Exec_all l2) (λ Ss2, ret (Ss1 ++ Ss2))) fm.
Proof.
  induction l1 as [|op l1 IH]; intros fm.
  - cbn [app Exec_all]. unfold bind, ret.
    destruct (Exec_all l2 fm) as [[Ss2|e|p] fm']; reflexivity.
  - cbn [app Exec_all]. unfold bind, ret in *.
    destruct (ValuesOp_Exec op fm) as [[vs|e|p] fm1]; try reflexivity.
    rewrite IH.
    destruct (Exec_all l1 fm1) as [[Ss1|e|p] fm2]; try reflexivity.
    destruct (Exec_all l2 fm2) as [[Ss2|e|p] fm3]; reflexivity.
Qed.

Lemma concat_singletons {A : Type} (l : list A) :
  concat ((λ x, [x]) <$> l) = l.
Proof. induction l as [|x l IH]; [reflexivity|]. simpl. f_equal. exact IH. Qed.

Section compound_pipeline.
Context `{Externals}.

Lemma doTilde_each_mapM (vs : list Value) :
  doTilde_each vs = result_mapM doTilde vs.
Proof.
  induction vs as [|v vs IH]; [reflexivity|].
  cbn [doTilde_each result_mapM]. rewrite IH. reflexivity.
Qed.

Lemma doGlob_each_spec (ec : Frame) (vs : list Value) : ∀ newvs,
  doGlob_each ec vs newvs
  = rbind (result_mapM (expand ec) vs)
      (λ rows, Ok (newvs ++ concat rows)).
Proof.
  induction vs as [|v vs IH]; intros newvs.
  - simpl. rewrite app_nil_r. reflexivity.
  - cbn [result_mapM].
    destruct v as [s|b|l|m|gp|c|e];
      cbn [doGlob_each expand rbind];
      try (rewrite IH; destruct (result_mapM (expand ec) vs) as [rows| |];
           simpl; [rewrite <- app_assoc|..]; reflexivity).
    destruct (doGlob gp ec) as [ms| |]; cbn [rbind]; try reflexivity.
    rewrite IH. destruct (result_mapM (expand ec) vs) as [rows| |];
      simpl; [rewrite <- app_assoc|..]; reflexivity.
Qed.

Lemma expand_no_pattern (ec : Frame) (vs : list Value) :
  existsb isGlobPattern vs = false →
  result_mapM (expand ec) vs = Ok ((λ v, [v]) <$> vs).
Proof.
  induction vs as [|v vs IH]; intros Hno; [reflexivity|].
  cbn [existsb] in Hno. apply orb_false_iff in Hno as [Hv Hvs].
  cbn [result_mapM]. rewrite (IH Hvs).
  destruct v; try discriminate; reflexivity.
Qed.

Lemma compoundOp_Invoke_expand (op : compoundOp) (fm fm' : Frame)
    (S0 : list Value) (Ss : list (list Value)) (ws : list Value) :
  Exec_all (subops op) fm = (Ok (S0 :: Ss), fm') →
  fold_outerProduct S0 Ss = Ok ws →
  compoundOp_Invoke op fm
  = (rbind (if tilde op then result_mapM doTilde ws else Ok ws)
       (λ ws', rbind (result_mapM (expand fm') ws')
                 (λ rows, Ok (concat rows))),
     fm').
Proof.
  intros Hexec Hfold. unfold compoundOp_Invoke.
  destruct (subops op) as [|subop0 rest]; [discriminate|].
  cbn [Exec_all] in Hexec. unfold bind in *.
  destruct (ValuesOp_Exec subop0 fm) as [[vs|e|p] fm1]; try discriminate.
  destruct (Exec_all rest fm1) as [[Ss'|e|p] fm2] eqn:Hrest; try discriminate.
  unfold ret in Hexec. injection Hexec as -> -> ->.
  rewrite (compoundOp_accumulate_fold rest S0 fm1 Ss fm' ws Hrest Hfold).
  assert (Hglob : ∀ ws' : list Value,
            (if existsb isGlobPattern ws'
             then λ ec, (doGlob_each ec ws' [], ec)
             else ret ws') fm'
            = (rbind (result_mapM (expand fm') ws')
                 (λ rows, Ok (concat rows)), fm')).
  { intros ws'. destruct (existsb isGlobPattern ws') eqn:Hhas.
    - rewrite doGlob_each_spec. reflexivity.
    - rewrite (expand_no_pattern _ _ Hhas). cbn [rbind].
      rewrite concat_singletons. reflexivity. }
  destruct (tilde op).
  - unfold lift. rewrite doTilde_each_mapM.
    destruct (result_mapM doTilde ws) as [ws'| |]; cbn [rbind];
      [apply Hglob | reflexivity | reflexivity].
  - unfold ret at 1. cbn [rbind]. apply Hglob.
Qed.


(** X9.  Evaluation of a compound stops at the first failure: when a
    sub-expression fails after the earlier ones evaluated and combined,
    the compound fails with that error, and when the values of a
    sub-expression cannot be concatenated onto the product of the earlier
    ones, the compound fails with the error of [cat]; in both cases the
    frame is the one that sub-expression left, so the later
    sub-expressions are not evaluated. *)
Theorem compoundOp_Invoke_stops (op : compoundOp) (pre post : list ValuesOp)
    (cur : ValuesOp) (fm fm1 fm2 : Frame) (Ss : list (list Value))
    (e : GoError) :
  subops op = pre ++ cur :: post →
  Exec_all pre fm = (Ok Ss, fm1) →
  (ValuesOp_Exec cur fm1 = (Fail e, fm2) →
   (∀ S0 Ss', Ss = S0 :: Ss' → ∃ acc, fold_outerProduct S0 Ss' = Ok acc) →
   compoundOp_Invoke op fm = (Fail e, fm2))
  ∧ (∀ S0 Ss' acc us,
       Ss = S0 :: Ss' →
       fold_outerProduct S0 Ss' = Ok acc →
       ValuesOp_Exec cur fm1 = (Ok us, fm2) →
       outerProduct acc us cat = Fail e →
       compoundOp_Invoke op fm = (Fail e, fm2)).
Proof.
  intros Hsub Hpre. unfold compoundOp_Invoke. rewrite Hsub.
  destruct pre as [|subop0 pre].
  - cbn [Exec_all] in Hpre. injection Hpre as <- <-. split.
    + intros Hcur _. cbn [app]. unfold bind. rewrite Hcur. reflexivity.
    + intros S0 Ss' acc us HSs. discriminate HSs.
  - cbn [Exec_all] in Hpre. unfold bind in Hpre.
    destruct (ValuesOp_Exec subop0 fm) as [[S0|e0|p0] fm0] eqn:H0;
      try discriminate.
    destruct (Exec_all pre fm0) as [[Ss'|e0|p0] fm0'] eqn:Hrest;
      try discriminate.
    unfold ret in Hpre. injection Hpre as <- <-.
    cbn [app].
    split.
    + intros Hcur Hfold. destruct (Hfold S0 Ss' eq_refl) as [acc Hacc].
      unfold bind at 1 2. rewrite H0.
      rewrite compoundOp_accumulate_app. unfold bind at 1.
      rewrite (compoundOp_accumulate_fold pre S0 fm0 Ss' fm0' acc Hrest Hacc).
      cbn [compoundOp_accumulate]. unfold bind. rewrite Hcur. reflexivity.
    + intros S1 Ss1 acc us [= <- <-] Hacc Hcur Hcat.
      unfold bind at 1 2. rewrite H0.
      rewrite compoundOp_accumulate_app. unfold bind at 1.
      rewrite (compoundOp_accumulate_fold pre S0 fm0 Ss' fm0' acc Hrest Hacc).
      cbn [compoundOp_accumulate]. unfold bind, lift.
      rewrite Hcur, Hcat. reflexivity.
Qed.

(** X10.  A sub-expression without values makes the compound empty: when
    the first sub-expression gives no values and the others evaluate, the
    compound gives no values, whatever the others give and whether or
    not it starts with a tilde; and when any later sub-expression gives
    no values and the product succeeds, the compound gives no values. *)
Theorem compoundOp_Invoke_empty_operand (op : compoundOp) (fm fm' : Frame)
    (S0 : list Value) (Ss : list (list Value)) :
  Exec_all (subops op) fm = (Ok (S0 :: Ss), fm') →
  (S0 = [] → compoundOp_Invoke op fm = (Ok [], fm'))
  ∧ (∀ ws, [] ∈ Ss → fold_outerProduct S0 Ss = Ok ws →
           compoundOp_Invoke op fm = (Ok [], fm')).
Proof.
  intros Hexec.
  assert (Hnil : fold_outerProduct S0 Ss = Ok [] →
                 compoundOp_Invoke op fm = (Ok [], fm')).
  { intros Hfold.
    rewrite (compoundOp_Invoke_expand op fm fm' S0 Ss [] Hexec Hfold).
    destruct (tilde op); reflexivity. }
  split.
  - intros ->. apply Hnil, fold_outerProduct_nil.
  - intros ws Hin Hfold. apply Hnil.
    destruct (fold_outerProduct_lexicographic S0 Ss ws Hfold) as [_ Hlen].
    unfold product_of_lengths in Hlen. cbn [foldr] in Hlen.
    fold (product_of_lengths Ss) in Hlen.
    rewrite (product_of_lengths_nil Ss Hin) in Hlen.
    rewrite Hfold. f_equal. apply nil_length_inv. lia.
Qed.

End compound_pipeline.


Lemma compoundOp_Invoke_stops_witness :
  @compoundOp_Invoke sample_externals
    (mkCompoundOp false
       [mkValuesOp (literalValues [types.String "a"]) 0 1;
        mkValuesOp (lift (Fail (ErrorString "no such variable"))) 1 2;
        tick_op])
    sample_frame
  = (Fail (ErrorString "no such variable"),
     mkFrame 1 2 (scope sample_frame) (store sample_frame))
  ∧ @compoundOp_Invoke sample_externals
      (mkCompoundOp false
         [mkValuesOp (literalValues [types.String "a"]) 0 1;
          mkValuesOp (literalValues [types.Bool true]) 1 2;
          tick_op])
      sample_frame
    = (Fail (ErrorString "unsupported concat: string and bool"),
       mkFrame 1 2 (scope sample_frame) (store sample_frame)).
Proof.
  split.
  - refine (proj1 (@compoundOp_Invoke_stops sample_externals
                     (mkCompoundOp false
                        [mkValuesOp (literalValues [types.String "a"]) 0 1;
                         mkValuesOp
                           (lift (Fail (ErrorString "no such variable"))) 1 2;
                         tick_op])
                     [mkValuesOp (literalValues [types.String "a"]) 0 1]
                     [tick_op]
                     (mkValuesOp
                        (lift (Fail (ErrorString "no such variable"))) 1 2)
                     sample_frame
                     (mkFrame 0 1 (scope sample_frame) (store sample_frame))
                     _ [[types.String "a"]] _ eq_refl eq_refl) eq_refl _).
    intros S0 Ss' [= <- <-]. exists [types.String "a"]. reflexivity.
  - exact (proj2 (@compoundOp_Invoke_stops sample_externals
                    (mkCompoundOp false
                       [mkValuesOp (literalValues [types.String "a"]) 0 1;
                        mkValuesOp (literalValues [types.Bool true]) 1 2;
                        tick_op])
                    [mkValuesOp (literalValues [types.String "a"]) 0 1]
                    [tick_op]
                    (mkValuesOp (literalValues [types.Bool true]) 1 2)
                    sample_frame
                    (mkFrame 0 1 (scope sample_frame) (store sample_frame))
                    _ [[types.String "a"]] _ eq_refl eq_refl)
             [types.String "a"] [] [types.String "a"] [types.Bool true]
             eq_refl eq_refl eq_refl eq_refl).
Defined.

Lemma compoundOp_Invoke_empty_operand_witness :
  @compoundOp_Invoke sample_externals
    (mkCompoundOp true
       [mkValuesOp (literalValues []) 0 1;
        mkValuesOp (literalValues [types.Bool true]) 1 2])
    sample_frame
  = (Ok [], mkFrame 1 2 (scope sample_frame) (store sample_frame))
  ∧ @compoundOp_Invoke sample_externals
      (mkCompoundOp false
         [mkValuesOp (literalValues [types.String "a"]) 0 1;
          mkValuesOp (literalValues []) 1 2])
      sample_frame
    = (Ok [], mkFrame 1 2 (scope sample_frame) (store sample_frame)).
Proof.
  split.
  - exact (proj1 (@compoundOp_Invoke_empty_operand sample_externals
                    (mkCompoundOp true
                       [mkValuesOp (literalValues []) 0 1;
                        mkValuesOp (literalValues [types.Bool true]) 1 2])
                    sample_frame _ [] [[types.Bool true]] eq_refl) eq_refl).
  - refine (proj2 (@compoundOp_Invoke_empty_operand sample_externals
                     (mkCompoundOp false
                        [mkValuesOp (literalValues [types.String "a"]) 0 1;
                         mkValuesOp (literalValues []) 1 2])
                     sample_frame _ [types.String "a"] [[]] eq_refl)
              [] _ eq_refl).
    apply list_elem_of_here.
Defined.

(** ** The byte drain: round trips *)


Lemma newline_string_append (s : string) :
  (newline_string ++ s)%string = String.String newline s.
Proof. unfold newline_string. rewrite append_cons, append_nil_l. reflexivity. Qed.

Lemma drained_lines_unlines (ls : list string) (frag : string) :
  Forall (λ l, newline ∉ list_ascii_of_string l) ls →
  newline ∉ list_ascii_of_string frag →
  drained_lines "" (unlines ls ++ frag)
  = ls ++ (if decide (frag ≠ "") then [frag] else []).
Proof.
  intros Hls Hfrag. induction Hls as [|l ls Hl _ IH].
  - cbn [unlines app]. rewrite append_nil_l.
    rewrite (drained_lines_end frag "" Hfrag), append_nil_l. reflexivity.
  - cbn [unlines]. rewrite !append_assoc, newline_string_append.
    rewrite (drained_lines_newline l _ "" Hl), append_nil_l, IH.
    reflexivity.
Qed.



(** X11.  Round trip of the byte drain: when the body writes the lines
    [ls], each followed by a newline, and then a fragment without a
    newline, the drain appends exactly the lines, in order, as string
    values (an empty line as the empty string), and then the fragment
    when it is not empty; this holds whatever error ends the stream, so
    a read error is not reported and loses none of the bytes read. *)
Theorem bytesCb_unlines (ls : list string) (frag : string) (e : GoError)
    (vs : list Value) :
  Forall (λ l, newline ∉ list_ascii_of_string l) ls →
  newline ∉ list_ascii_of_string frag →
  bytesCb (mkReader (unlines ls ++ frag) e) vs
  = Some (vs ++ (types.String <$> ls)
             ++ (if decide (frag ≠ "") then [types.String frag] else [])).
Proof.
  intros Hls Hfrag. unfold bytesCb. cbn [pending].
  rewrite bytesCb_loop_spec by lia.
  rewrite (drained_lines_unlines ls frag Hls Hfrag), fmap_app.
  destruct (decide (frag ≠ "")); reflexivity.
Qed.

Lemma bytesCb_unlines_witness :
  bytesCb (mkReader (unlines ["ab"; ""; "c"] ++ "d")
             (ErrorString "read |0: file already closed")) [OK]
  = Some [OK; types.String "ab"; types.String ""; types.String "c";
          types.String "d"].
Proof.
  apply (bytesCb_unlines ["ab"; ""; "c"] "d"
           (ErrorString "read |0: file already closed") [OK]).
  - repeat constructor; byte_not_in.
  - byte_not_in.
Defined.


(** ** Lambdas: the captured namespace *)

(** X13.  The closure that evaluating a lambda gives captures exactly
    the names in the lambda's capture set, each bound to what the name
    resolves to, in the empty namespace, in the frame as it is when the
    evaluation starts (before the option defaults run); a name that does
    not resolve is captured as nil and is no error. *)
Theorem lambdaOp_captures (op : lambdaOp) (fm fm' : Frame) (vs : list Value) :
  lambdaOp_Invoke op fm = (Ok vs, fm') →
  ∃ c, vs = [types.Fn c]
       ∧ dom (Captured c) = capture op
       ∧ (∀ name, name ∈ capture op →
                  Captured c !! name = Some (ResolveVar fm "" name))
       ∧ (∀ name, name ∉ capture op → Captured c !! name = None).
Proof.
  unfold lambdaOp_Invoke, bind. intros Hinv.
  destruct (lambdaOp_optDefaults (optDefaultOps op) fm) as [[ds|e|p] fm1];
    try discriminate.
  unfold ret in Hinv. injection Hinv as <- <-.
  eexists. split; [reflexivity|]. cbn [Captured].
  set (f := λ name : string, (name, ResolveVar fm "" name)).
  assert (Hinj : ∀ y y' : string,
            y ∈ capture op → y' ∈ capture op → (f y).1 = (f y').1 → y = y').
  { intros y y' _ _ Hf. exact Hf. }
  assert (Hin : ∀ name, name ∈ capture op →
            (set_to_map f (capture op) : gmap string (option Var)) !! name
            = Some (ResolveVar fm "" name)).
  { intros name Hname. apply (lookup_set_to_map f _ _ _ Hinj).
    exists name. split; [exact Hname | reflexivity]. }
  assert (Hout : ∀ name, name ∉ capture op →
            (set_to_map f (capture op) : gmap string (option Var)) !! name
            = None).
  { intros name Hname.
    destruct (set_to_map f (capture op) !! name) as [x|] eqn:Hx; [|reflexivity].
    apply (lookup_set_to_map f _ _ _ Hinj) in Hx as [y [Hy Hfy]].
    injection Hfy as -> _. contradiction. }
  split; [|split; [exact Hin | exact Hout]].
  apply set_eq. intros name. rewrite elem_of_dom.
  destruct (decide (name ∈ capture op)) as [Hname|Hname].
  - rewrite (Hin name Hname). split; [intros _; exact Hname | eauto].
  - rewrite (Hout name Hname). split; [intros [x Hx]; discriminate | contradiction].
Qed.

Lemma lambdaOp_captures_witness :
  ∃ c, [types.Fn (closure_of sample_capturing_lambda sample_scope_frame [])]
       = [types.Fn c]
       ∧ dom (Captured c) = capture sample_capturing_lambda
       ∧ (∀ name, name ∈ capture sample_capturing_lambda →
                  Captured c !! name
                  = Some (ResolveVar sample_scope_frame "" name))
       ∧ (∀ name, name ∉ capture sample_capturing_lambda →
                  Captured c !! name = None).
Proof.
  apply (lambdaOp_captures sample_capturing_lambda sample_scope_frame
           sample_scope_frame).
  reflexivity.
Defined.

(** ** Map literals: bounds and failures *)

Lemma no_runtime_panic_bind {A B : Type} (m : M A) (k : A → M B) (fm : Frame) :
  no_runtime_panic (m fm).1 →
  (∀ a fm', no_runtime_panic (k a fm').1) →
  no_runtime_panic (bind m k fm).1.
Proof.
  intros Hm Hk. unfold bind.
  destruct (m fm) as [[a|e|p] fm']; [apply Hk | exact I | exact Hm].
Qed.

Lemma mapPairsOp_pairs_in_range (op : mapPairsOp) :
  length (valuesOps op) = length (keysOps op) →
  length (begins op) = length (keysOps op) →
  length (ends op) = length (keysOps op) →
  (∀ o fm0, o ∈ keysOps op ++ valuesOps op →
            no_runtime_panic (ValuesOp_Exec o fm0).1) →
  ∀ rest i m fm,
    (∀ j o, rest !! j = Some o → keysOps op !! (i + j) = Some o) →
    no_runtime_panic (mapPairsOp_pairs op i rest m fm).1.
Proof.
  intros Hv Hb He Hops.
  induction rest as [|keysOp rest IH]; intros i m fm Hrest; [exact I|].
  cbn [mapPairsOp_pairs].
  pose proof (Hrest 0 keysOp eq_refl) as Hk.
  rewrite Nat.add_0_r in Hk.
  pose proof (lookup_lt_Some _ _ _ Hk) as Hi.
  apply no_runtime_panic_bind.
  { apply Hops, elem_of_app. left. exact (list_elem_of_lookup_2 _ _ _ Hk). }
  intros keys fm1.
  destruct (lookup_lt_is_Some_2 (valuesOps op) i ltac:(lia)) as [valuesOp Hvo].
  rewrite Hvo.
  apply no_runtime_panic_bind.
  { apply Hops, elem_of_app. right. exact (list_elem_of_lookup_2 _ _ _ Hvo). }
  intros values fm2.
  destruct (decide (length keys ≠ length values)) as [Hne|Heq].
  - destruct (lookup_lt_is_Some_2 (begins op) i ltac:(lia)) as [b Hb'].
    destruct (lookup_lt_is_Some_2 (ends op) i ltac:(lia)) as [e He'].
    rewrite Hb', He'. exact I.
  - unfold bind at 1. unfold ret at 1.
    unfold bind at 1. unfold lift at 1.
    rewrite mapPairsOp_assoc_spec by lia.
    apply IH. intros j o Hj.
    replace (S i + j) with (i + S j) by lia. exact (Hrest (S j) o Hj).
Qed.

(** X14.  Evaluating a map literal never reads outside its four parallel
    slices or outside the values of a pair: when the slices have the same
    length and no key or value operation panics in the runtime, the
    evaluation does not either; the read of [values[j]] is in range
    because a pair with unequal counts has thrown before. *)
Theorem mapPairsOp_Invoke_in_range (op : mapPairsOp) (fm : Frame) :
  length (valuesOps op) = length (keysOps op) →
  length (begins op) = length (keysOps op) →
  length (ends op) = length (keysOps op) →
  (∀ o fm0, o ∈ keysOps op ++ valuesOps op →
            no_runtime_panic (ValuesOp_Exec o fm0).1) →
  no_runtime_panic (mapPairsOp_Invoke op fm).1.
Proof.
  intros Hv Hb He Hops. unfold mapPairsOp_Invoke.
  apply no_runtime_panic_bind; [|intros m fm'; exact I].
  apply (mapPairsOp_pairs_in_range op Hv Hb He Hops).
  intros j o Hj. exact Hj.
Qed.

Lemma mapPairsOp_Invoke_in_range_witness :
  no_runtime_panic (mapPairsOp_Invoke sample_mapPairs sample_frame).1.
Proof.
  apply (mapPairsOp_Invoke_in_range sample_mapPairs sample_frame);
    try reflexivity.
  intros o fm0 Hin. cbn [sample_mapPairs keysOps valuesOps app] in Hin.
  apply elem_of_cons in Hin as [->|Hin]; [exact I|].
  apply elem_of_cons in Hin as [->|Hin]; [exact I|].
  inversion Hin.
Defined.

(** X15.  Evaluation of a map literal stops at the first failing
    expression: when the key expression of a pair fails, after the
    earlier pairs evaluated with matching counts, the literal fails with
    that error and the value expression of the pair is not evaluated;
    when the value expression fails, the literal fails with that error.
    The frame is the one the failing expression left, so later pairs are
    not evaluated. *)
Theorem mapPairsOp_Invoke_stops (op : mapPairsOp) (i : nat)
    (keysOp valuesOp : ValuesOp) (fm fm0 : Frame)
    (kvs : list (list Value * list Value)) :
  keysOps op !! i = Some keysOp →
  valuesOps op !! i = Some valuesOp →
  Exec_pairs (take i (keysOps op)) (take i (valuesOps op)) fm
  = (Ok kvs, fm0) →
  Forall counts_match kvs →
  (∀ e fm1,
     ValuesOp_Exec keysOp fm0 = (Fail e, fm1) →
     mapPairsOp_Invoke op fm = (Fail e, fm1))
  ∧ (∀ keys e fm1 fm2,
       ValuesOp_Exec keysOp fm0 = (Ok keys, fm1) →
       ValuesOp_Exec valuesOp fm1 = (Fail e, fm2) →
       mapPairsOp_Invoke op fm = (Fail e, fm2)).
Proof.
  intros Hk Hv Hpre Hcount.
  pose proof (lookup_lt_Some _ _ _ Hk) as Hik.
  pose proof (lookup_lt_Some _ _ _ Hv) as Hiv.
  assert (Hstep : mapPairsOp_Invoke op fm
                  = bind (mapPairsOp_pairs op i (drop i (keysOps op))
                            (assoc_all hashmap.Empty (entries_of kvs)))
                      (λ m, ret [types.Map m]) fm0).
  { unfold mapPairsOp_Invoke.
    rewrite <- (take_drop i (keysOps op)) at 1.
    unfold bind at 1. rewrite mapPairsOp_pairs_app. unfold bind at 1.
    rewrite (mapPairsOp_pairs_ok op (take i (keysOps op))
               (take i (valuesOps op)) 0 hashmap.Empty fm kvs fm0);
      [| rewrite !length_take; lia
       | intros j vo Hj; simpl; apply lookup_take_Some in Hj as [Hj _]; exact Hj
       | exact Hpre | exact Hcount].
    rewrite length_take.
    replace (0 + i `min` length (keysOps op)) with i by lia.
    reflexivity. }
  rewrite Hstep. rewrite (drop_S _ _ _ Hk).
  cbn [mapPairsOp_pairs]. unfold bind. split.
  - intros e fm1 Hkeys. rewrite Hkeys. reflexivity.
  - intros keys e fm1 fm2 Hkeys Hvalues.
    rewrite Hkeys, Hv, Hvalues. reflexivity.
Qed.

Lemma mapPairsOp_Invoke_stops_witness :
  mapPairsOp_Invoke
    (mkMapPairsOp
       [mkValuesOp (literalValues [types.String "k"]) 1 2;
        mkValuesOp (lift (Fail (ErrorString "no such variable"))) 4 5]
       [mkValuesOp (literalValues [types.String "v"]) 2 3; tick_op]
       [1%Z; 4%Z] [3%Z; 6%Z])
    sample_frame
  = (Fail (ErrorString "no such variable"),
     mkFrame 4 5 (scope sample_frame) (store sample_frame)).
Proof.
  refine (proj1 (mapPairsOp_Invoke_stops
                   (mkMapPairsOp
                      [mkValuesOp (literalValues [types.String "k"]) 1 2;
                       mkValuesOp
                         (lift (Fail (ErrorString "no such variable"))) 4 5]
                      [mkValuesOp (literalValues [types.String "v"]) 2 3;
                       tick_op]
                      [1%Z; 4%Z] [3%Z; 6%Z])
                   1 _ tick_op sample_frame
                   (mkFrame 2 3 (scope sample_frame) (store sample_frame))
                   [([types.String "k"], [types.String "v"])]
                   eq_refl eq_refl eq_refl _) _ _ eq_refl).
  repeat constructor.
Defined.

(** ** Sequences of compounds and list literals *)

Lemma seqValuesOp_loop_spec (rest : list ValuesOp) : ∀ values fm,
  seqValuesOp_loop rest values fm
  = bind (Exec_all rest) (λ Ss, ret (values ++ concat Ss)) fm.
Proof.
  induction rest as [|subop rest IH]; intros values fm.
  - cbn. unfold bind, ret. rewrite app_nil_r. reflexivity.
  - cbn [seqValuesOp_loop Exec_all]. unfold bind at 1 2 3.
    destruct (ValuesOp_Exec subop fm) as [[more|e|p] fm1]; try reflexivity.
    rewrite IH. unfold bind, ret.
    destruct (Exec_all rest fm1) as [[Ss|e|p] fm2]; try reflexivity.
    cbn [concat]. rewrite app_assoc. reflexivity.
Qed.

(** X16.  A sequence of compounds (an array, a braced list) evaluates
    its sub-expressions in order and gives their values concatenated,
    without any cartesian expansion, stopping at the first sub-expression
    that fails; and the sequence of two lists of sub-expressions
    evaluates as the first followed by the second. *)
Theorem seqValuesOp_Invoke_concat (ops ops' : list ValuesOp) (fm : Frame) :
  seqValuesOp_Invoke (mkSeqValuesOp ops) fm
  = bind (Exec_all ops) (λ Ss, ret (concat Ss)) fm
  ∧ seqValuesOp_Invoke (mkSeqValuesOp (ops ++ ops')) fm
    = bind (seqValuesOp_Invoke (mkSeqValuesOp ops))
        (λ vs, bind (seqValuesOp_Invoke (mkSeqValuesOp ops'))
                 (λ vs', ret (vs ++ vs'))) fm.
Proof.
  unfold seqValuesOp_Invoke. cbn [seqValues_subops]. split.
  - apply seqValuesOp_loop_spec.
  - rewrite seqValuesOp_loop_spec. unfold bind.
    rewrite Exec_all_app, seqValuesOp_loop_spec. unfold bind, ret.
    destruct (Exec_all ops fm) as [[Ss|e|p] fm1]; try reflexivity.
    rewrite seqValuesOp_loop_spec. unfold bind, ret.
    destruct (Exec_all ops' fm1) as [[Ss'|e|p] fm2]; try reflexivity.
    cbn [app]. rewrite concat_app. reflexivity.
Qed.

(** X17.  A list literal evaluates to exactly one value, the list of the
    values of its elements concatenated in order (so an element that
    gives several values contributes several members, and a literal
    without elements gives one empty list); when an element fails the
    literal fails with that error and gives no list. *)
Theorem compiler_list_one_list (elements : list ValuesOp) (fm : Frame) :
  compiler_list elements fm
  = bind (Exec_all elements) (λ Ss, ret [types.List (concat Ss)]) fm
  ∧ compiler_list [] fm = (Ok [types.List []], fm)
  ∧ (∀ vs fm', compiler_list elements fm = (Ok vs, fm') →
               ∃ members, vs = [types.List members]).
Proof.
  assert (Heq : compiler_list elements fm
                = bind (Exec_all elements)
                    (λ Ss, ret [types.List (concat Ss)]) fm).
  { unfold compiler_list, listOp_Invoke. cbn [listOp_subop].
    unfold bind at 1.
    unfold seqValuesOp_Invoke. cbn [seqValues_subops].
    rewrite seqValuesOp_loop_spec.
    unfold bind, ret.
    destruct (Exec_all elements fm) as [[Ss|e|p] fm1]; reflexivity. }
  split; [exact Heq|]. split; [reflexivity|].
  intros vs fm' Hvs. rewrite Heq in Hvs. unfold bind, ret in Hvs.
  destruct (Exec_all elements fm) as [[Ss|e|p] fm1]; try discriminate.
  injection Hvs as <- <-. eexists. reflexivity.
Qed.

Lemma compiler_list_one_list_witness :
  ∃ members,
    [types.List [types.String "a"; types.String "b"; types.String "c"]]
    = [types.List members].
Proof.
  exact (proj2 (proj2 (compiler_list_one_list
                         [mkValuesOp
                            (literalValues
                               [types.String "a"; types.String "b"]) 1 2;
                          mkValuesOp (literalValues [types.String "c"]) 3 4]
                         sample_frame))
           [types.List [types.String "a"; types.String "b"; types.String "c"]]
           (mkFrame 3 4 (scope sample_frame) (store sample_frame))
           eq_refl).
Defined.

(** ** Indexing chains *)

Section indexing_chain.
Variable Indexer : Value → option (Value → result Value).

Lemma indexingOp_indicies_spec (indexer : Value → result Value)
    (indicies : list Value) : ∀ newvs,
  indexingOp_indicies indexer indicies newvs
  = rbind (result_mapM indexer indicies) (λ row, Ok (newvs ++ row)).
Proof.
  induction indicies as [|index indicies IH]; intros newvs.
  - cbn. rewrite app_nil_r. reflexivity.
  - cbn [indexingOp_indicies result_mapM].
    destruct (indexer index) as [r|e|p]; cbn [rbind]; try reflexivity.
    rewrite IH.
    destruct (result_mapM indexer indicies) as [row|e|p]; cbn [rbind];
      try reflexivity.
    rewrite <- app_assoc. reflexivity.
Qed.

(** What one step of the chain computes for the value [v]. *)
Lemma indexingOp_values_spec (indicies : list Value) : ∀ vs newvs,
  indexingOp_values Indexer vs indicies newvs
  = rbind (result_mapM
             (λ v, match Indexer v with
                   | None => Fail (not_indexable v)
                   | Some indexer => result_mapM indexer indicies
                   end) vs)
      (λ rows, Ok (newvs ++ concat rows)).
Proof.
  induction vs as [|v vs IH]; intros newvs.
  - cbn. rewrite app_nil_r. reflexivity.
  - cbn [indexingOp_values result_mapM].
    destruct (Indexer v) as [indexer|]; [|reflexivity].
    rewrite indexingOp_indicies_spec.
    destruct (result_mapM indexer indicies) as [row|e|p]; cbn [rbind];
      try reflexivity.
    rewrite IH.
    destruct (result_mapM _ vs) as [rows|e|p]; cbn [rbind]; try reflexivity.
    cbn [concat]. rewrite app_assoc. reflexivity.
Qed.

Lemma indexingOp_values_outerProduct (vs indicies : list Value) :
  indicies ≠ [] ∨ Forall (λ v, is_Some (Indexer v)) vs →
  indexingOp_values Indexer vs indicies []
  = outerProduct vs indicies (index_value Indexer).
Proof.
  intros Hside. rewrite indexingOp_values_spec, outerProduct_refines.
  unfold outerProduct_spec. f_equal.
  induction vs as [|v vs IH]; [reflexivity|].
  cbn [result_mapM].
  assert (Hv : match Indexer v with
               | None => Fail (not_indexable v)
               | Some indexer => result_mapM indexer indicies
               end = result_mapM (index_value Indexer v) indicies).
  { unfold index_value. destruct (Indexer v) as [indexer|] eqn:Hix.
    - reflexivity.
    - destruct Hside as [Hne|Hall].
      + destruct indicies as [|index indicies]; [contradiction|reflexivity].
      + apply Forall_cons in Hall as [[ix Hsome] _]. congruence. }
  rewrite Hv.
  rewrite IH; [reflexivity|].
  destruct Hside as [Hne|Hall]; [left; exact Hne|].
  right. apply Forall_cons in Hall as [_ Hall]. exact Hall.
Qed.

Lemma indexingOp_steps_fold (rest : list ValuesOp) : ∀ vs fm Is fm' ws,
  Exec_all rest fm = (Ok Is, fm') →
  Forall (λ indicies, indicies ≠ []) Is →
  fold_indexing Indexer vs Is = Ok ws →
  indexingOp_steps Indexer rest vs fm = (Ok ws, fm').
Proof.
  induction rest as [|indexOp rest IH]; intros vs fm Is fm' ws Hexec Hne Hfold.
  - injection Hexec as <- <-. injection Hfold as <-. reflexivity.
  - cbn [Exec_all indexingOp_steps] in *. unfold bind in *.
    destruct (ValuesOp_Exec indexOp fm) as [[indicies|e|p] fm1];
      try discriminate.
    destruct (Exec_all rest fm1) as [[Is'|e|p] fm2] eqn:Hrest;
      try discriminate.
    unfold ret in Hexec. injection Hexec as <- <-.
    apply Forall_cons in Hne as [Hne0 Hne].
    cbn [fold_indexing] in Hfold. unfold lift.
    rewrite indexingOp_values_outerProduct by (left; exact Hne0).
    destruct (outerProduct vs indicies (index_value Indexer)) as [vs'| |];
      try discriminate.
    cbn [rbind] in Hfold. exact (IH vs' fm1 Is' fm2 ws Hrest Hne Hfold).
Qed.

(** X18.  An indexing chain is a repeated outer product: when the head
    gives the values [vs] and the index expressions give the non-empty
    index sequences [Is], the chain gives the values indexed by each
    sequence in turn, every value by every index, the values varying
    slowest; a value that is not indexable counts as failing on every
    index. *)
Theorem indexingOp_Invoke_fold (op : indexingOp) (fm fm1 fm' : Frame)
    (vs : list Value) (Is : list (list Value)) (ws : list Value) :
  ValuesOp_Exec (headOp op) fm = (Ok vs, fm1) →
  Exec_all (indexOps op) fm1 = (Ok Is, fm') →
  Forall (λ indicies, indicies ≠ []) Is →
  fold_indexing Indexer vs Is = Ok ws →
  indexingOp_Invoke Indexer op fm = (Ok ws, fm').
Proof.
  intros Hhead Hexec Hne Hfold. unfold indexingOp_Invoke, bind.
  rewrite Hhead. exact (indexingOp_steps_fold _ _ _ _ _ _ Hexec Hne Hfold).
Qed.

(** X19.  A value that is not indexable makes the chain fail with "a
    (kind) not indexable", once the values before it have been indexed
    by every index: this is also so when the index expression gives no
    indices, where the outer product is empty and does not fail; the
    later index expressions are not evaluated. *)
Theorem indexingOp_Invoke_not_indexable (op : indexingOp)
    (indexOp : ValuesOp) (more : list ValuesOp) (fm fm1 fm2 : Frame)
    (pre post indicies : list Value) (v : Value) :
  indexOps op = indexOp :: more →
  ValuesOp_Exec (headOp op) fm = (Ok (pre ++ v :: post), fm1) →
  ValuesOp_Exec indexOp fm1 = (Ok indicies, fm2) →
  Forall (λ u, ∃ indexer row, Indexer u = Some indexer
                              ∧ result_mapM indexer indicies = Ok row) pre →
  Indexer v = None →
  indexingOp_Invoke Indexer op fm = (Fail (not_indexable v), fm2)
  ∧ outerProduct (pre ++ v :: post) [] (index_value Indexer) = Ok [].
Proof.
  intros Hops Hhead Hindex Hpre Hv. split.
  - unfold indexingOp_Invoke, bind. rewrite Hhead, Hops.
    cbn [indexingOp_steps]. unfold bind, lift. rewrite Hindex.
    rewrite indexingOp_values_spec.
    rewrite result_mapM_stops; [rewrite Hv; reflexivity | |].
    + eapply Forall_impl; [exact Hpre|].
      intros u [indexer [row [-> Hrow]]]. exists row. exact Hrow.
    + intros b. rewrite Hv. discriminate.
  - rewrite outerProduct_refines. unfold outerProduct_spec.
    generalize (pre ++ v :: post). intros l.
    induction l as [|x l IH]; [reflexivity|].
    cbn [result_mapM rbind] in *.
    destruct (result_mapM _ l) as [rows| |]; simpl in *;
      [exact IH | discriminate | discriminate].
Qed.

End indexing_chain.

Lemma indexingOp_Invoke_fold_witness :
  indexingOp_Invoke sample_Indexer
    (mkIndexingOp
       (mkValuesOp
          (literalValues
             [types.Map [(types.String "a", types.String "1");
                         (types.String "b", types.String "2")]]) 0 1)
       [mkValuesOp (literalValues [types.String "b"; types.String "a"]) 2 3])
    sample_frame
  = (Ok [types.String "2"; types.String "1"],
     mkFrame 2 3 (scope sample_frame) (store sample_frame)).
Proof.
  refine (indexingOp_Invoke_fold sample_Indexer
            (mkIndexingOp
               (mkValuesOp
                  (literalValues
                     [types.Map [(types.String "a", types.String "1");
                                 (types.String "b", types.String "2")]]) 0 1)
               [mkValuesOp
                  (literalValues [types.String "b"; types.String "a"]) 2 3])
            sample_frame
            (mkFrame 0 1 (scope sample_frame) (store sample_frame))
            (mkFrame 2 3 (scope sample_frame) (store sample_frame))
            [types.Map [(types.String "a", types.String "1");
                        (types.String "b", types.String "2")]]
            [[types.String "b"; types.String "a"]]
            [types.String "2"; types.String "1"]
            eq_refl eq_refl _ eq_refl).
  repeat constructor. discriminate.
Defined.

Lemma indexingOp_Invoke_not_indexable_witness :
  indexingOp_Invoke sample_Indexer
    (mkIndexingOp
       (mkValuesOp
          (literalValues
             [types.Map [(types.String "a", types.String "1")];
              types.String "x"]) 0 1)
       [mkValuesOp (literalValues []) 2 3; tick_op])
    sample_frame
  = (Fail (ErrorString "a string not indexable"),
     mkFrame 2 3 (scope sample_frame) (store sample_frame))
  ∧ outerProduct
      ([types.Map [(types.String "a", types.String "1")]]
       ++ types.String "x" :: [])
      [] (index_value sample_Indexer)
    = Ok [].
Proof.
  refine (indexingOp_Invoke_not_indexable sample_Indexer
            (mkIndexingOp
               (mkValuesOp
                  (literalValues
                     [types.Map [(types.String "a", types.String "1")];
                      types.String "x"]) 0 1)
               [mkValuesOp (literalValues []) 2 3; tick_op])
            (mkValuesOp (literalValues []) 2 3) [tick_op]
            sample_frame
            (mkFrame 0 1 (scope sample_frame) (store sample_frame))
            (mkFrame 2 3 (scope sample_frame) (store sample_frame))
            [types.Map [(types.String "a", types.String "1")]] []
            [] (types.String "x")
            eq_refl eq_refl eq_refl _ eq_refl).
  repeat constructor. eexists _, []. split; reflexivity.
Defined.

(** ** Compiling map literals *)

Lemma insert_at_length {A : Type} (l1 l2 : list A) (x y : A) (n : nat) :
  n = length l1 → <[n := y]> (l1 ++ x :: l2) = (l1 ++ [y]) ++ l2.
Proof.
  intros ->. induction l1 as [|a l1 IH]; [reflexivity|].
  simpl. f_equal. exact IH.
Qed.

Section mapPairs_compile.
Variable cp_compoundOp : parse.Compound → ValuesOp.

Lemma mapPairs_loop_spec (pairs : list MapPair.t) : ∀ ks vs bs es,
  length vs = length ks → length bs = length ks → length es = length ks →
  mapPairs_loop cp_compoundOp (length ks) pairs
    (mkMapPairsOp (ks ++ replicate (length pairs) zero_ValuesOp)
       (vs ++ replicate (length pairs) zero_ValuesOp)
       (bs ++ replicate (length pairs) 0%Z)
       (es ++ replicate (length pairs) 0%Z))
  = Ok (mkMapPairsOp
          (ks ++ ((λ p, cp_compoundOp (MapPair.Key p)) <$> pairs))
          (vs ++ (mapPairs_valuesOp cp_compoundOp <$> pairs))
          (bs ++ (MapPair.Begin <$> pairs))
          (es ++ (MapPair.End_ <$> pairs))).
Proof.
  induction pairs as [|p pairs IH]; intros ks vs bs es Hv Hb He;
    [reflexivity|].
  cbn [mapPairs_loop keysOps valuesOps begins ends length replicate].
  rewrite decide_True
    by (rewrite !length_app; cbn [length]; repeat split; lia).
  rewrite !insert_at_length by congruence.
  replace (S (length ks)) with (length (ks ++ [cp_compoundOp (MapPair.Key p)]))
    by (rewrite length_app; simpl; lia).
  rewrite IH by (rewrite !length_app; simpl; lia).
  rewrite !fmap_cons, <- !app_assoc. reflexivity.
Qed.

Lemma mapPairs_spec (pairs : list MapPair.t) :
  mapPairs cp_compoundOp pairs
  = Ok (mkMapPairsOp
          ((λ p, cp_compoundOp (MapPair.Key p)) <$> pairs)
          (mapPairs_valuesOp cp_compoundOp <$> pairs)
          (MapPair.Begin <$> pairs)
          (MapPair.End_ <$> pairs)).
Proof.
  unfold mapPairs.
  exact (mapPairs_loop_spec pairs [] [] [] [] eq_refl eq_refl eq_refl).
Qed.

(** X20.  Compiling a map literal of n pairs never writes outside the
    slices it allocates, and gives an operation whose four slices have n
    entries each, entry i made from pair i; so, when no compiled
    sub-expression panics in the runtime, evaluating the compiled literal
    does not either. *)
Theorem mapPairs_compiles (pairs : list MapPair.t) :
  ∃ op, mapPairs cp_compoundOp pairs = Ok op
        ∧ keysOps op = (λ p, cp_compoundOp (MapPair.Key p)) <$> pairs
        ∧ valuesOps op = mapPairs_valuesOp cp_compoundOp <$> pairs
        ∧ begins op = MapPair.Begin <$> pairs
        ∧ ends op = MapPair.End_ <$> pairs
        ∧ ((∀ c fm0, no_runtime_panic (ValuesOp_Exec (cp_compoundOp c) fm0).1) →
           ∀ fm, no_runtime_panic (mapPairsOp_Invoke op fm).1).
Proof.
  eexists. split; [apply mapPairs_spec|].
  cbn [keysOps valuesOps begins ends].
  repeat (split; [reflexivity|]).
  intros Hcp fm. unfold mapPairsOp_Invoke.
  apply no_runtime_panic_bind; [|intros m fm'; exact I].
  apply mapPairsOp_pairs_in_range;
    cbn [keysOps valuesOps begins ends]; rewrite ?length_fmap;
    try reflexivity.
  - intros o fm0 Hin. apply elem_of_app in Hin as [Hin|Hin];
      apply list_elem_of_fmap in Hin as [p [-> _]]; [apply Hcp|].
    unfold mapPairs_valuesOp. destruct (MapPair.Value p); [apply Hcp|exact I].
  - intros j o Hj. exact Hj.
Qed.

(** X21.  In a map literal a pair without a value stands for the value
    true: when the pairs before the last evaluate with matching counts
    and the last pair has no value, a key expression that gives exactly
    one key binds that key to true in the resulting map, and a key
    expression that gives any other number n of keys makes the evaluation
    throw "n keys but 1 values" with the span of the pair.  The frame is
    left with the empty span at the end of the pair. *)
Theorem mapPairs_valueless (pre : list MapPair.t) (p : MapPair.t)
    (op : mapPairsOp) (fm fm0 fm1 : Frame)
    (kvs : list (list Value * list Value)) (keys : list Value) :
  mapPairs cp_compoundOp (pre ++ [p]) = Ok op →
  MapPair.Value p = None →
  Exec_pairs ((λ q, cp_compoundOp (MapPair.Key q)) <$> pre)
    (mapPairs_valuesOp cp_compoundOp <$> pre) fm = (Ok kvs, fm0) →
  Forall counts_match kvs →
  ValuesOp_Exec (cp_compoundOp (MapPair.Key p)) fm0 = (Ok keys, fm1) →
  let fm2 := mkFrame (MapPair.End_ p) (MapPair.End_ p) (scope fm1) (store fm1) in
  (∀ k, keys = [k] →
        ∃ m, mapPairsOp_Invoke op fm = (Ok [types.Map m], fm2)
             ∧ hashmap.Index m k = Some (types.Bool true))
  ∧ (length keys ≠ 1 →
     mapPairsOp_Invoke op fm
     = (throw (DiagError (MapPair.Begin p) (MapPair.End_ p)
                 (pretty (length keys) ++ " keys but 1 values")), fm2)).
Proof.
  intros Hop Hnone Hpre Hcount Hkeys fm2.
  rewrite mapPairs_spec in Hop. injection Hop as <-.
  set (kf := λ q, cp_compoundOp (MapPair.Key q)) in *.
  set (vf := mapPairs_valuesOp cp_compoundOp) in *.
  set (op := mkMapPairsOp (kf <$> pre ++ [p]) (vf <$> pre ++ [p])
               (MapPair.Begin <$> pre ++ [p]) (MapPair.End_ <$> pre ++ [p])).
  assert (Hvp : vf p = mkValuesOp (literalValues [types.Bool true])
                         (MapPair.End_ p) (MapPair.End_ p)).
  { unfold vf, mapPairs_valuesOp. rewrite Hnone. reflexivity. }
  assert (Hstep : mapPairsOp_Invoke op fm
                  = bind (mapPairsOp_pairs op (length pre) [kf p]
                            (assoc_all hashmap.Empty (entries_of kvs)))
                      (λ m, ret [types.Map m]) fm0).
  { unfold mapPairsOp_Invoke. unfold bind at 1.
    change (keysOps op) with (kf <$> pre ++ [p]).
    rewrite fmap_app, mapPairsOp_pairs_app. unfold bind at 1.
    rewrite (mapPairsOp_pairs_ok op (kf <$> pre) (vf <$> pre) 0
               hashmap.Empty fm kvs fm0);
      [| rewrite !length_fmap; reflexivity
       | intros j vo Hj; cbn [valuesOps op]; rewrite fmap_app;
         apply lookup_app_l_Some; exact Hj
       | exact Hpre | exact Hcount].
    rewrite length_fmap. reflexivity. }
  assert (Hv : valuesOps op !! length pre = Some (vf p)).
  { cbn [valuesOps op]. rewrite fmap_app.
    rewrite <- (length_fmap vf pre). apply list_lookup_middle. reflexivity. }
  assert (Hb : begins op !! length pre = Some (MapPair.Begin p)).
  { cbn [begins op]. rewrite fmap_app.
    rewrite <- (length_fmap MapPair.Begin pre).
    apply list_lookup_middle. reflexivity. }
  assert (He : ends op !! length pre = Some (MapPair.End_ p)).
  { cbn [ends op]. rewrite fmap_app.
    rewrite <- (length_fmap MapPair.End_ pre).
    apply list_lookup_middle. reflexivity. }
  change (cp_compoundOp (MapPair.Key p)) with (kf p) in Hkeys.
  assert (Hrun : mapPairsOp_Invoke op fm
                 = bind
                     (if decide (length keys ≠ length [types.Bool true])
                      then errorpf (MapPair.Begin p) (MapPair.End_ p)
                             (pretty (length keys) ++ " keys but " ++
                              pretty (length [types.Bool true]) ++ " values")
                      else ret tt)
                     (λ _, bind
                             (lift (mapPairsOp_assoc 0 keys [types.Bool true]
                                      (assoc_all hashmap.Empty (entries_of kvs))))
                             (λ m, ret [types.Map m])) fm2).
  { rewrite Hstep. cbn [mapPairsOp_pairs]. unfold bind at 1 2.
    rewrite Hkeys, Hv, Hvp.
    unfold bind at 1. unfold ValuesOp_Exec at 1.
    cbn [Body Begin End_ literalValues]. fold fm2.
    rewrite Hb, He. unfold bind, ret, lift.
    destruct (decide (length keys ≠ length [types.Bool true]));
      [reflexivity|].
    destruct (mapPairsOp_assoc 0 keys [types.Bool true] _); reflexivity. }
  rewrite Hrun. split.
  - intros k ->.
    destruct (decide (length [k] ≠ length [types.Bool true])) as [Hne|_];
      [exfalso; apply Hne; reflexivity|].
    eexists. split; [reflexivity|].
    rewrite hashmap_Index_Assoc, Value_eqb_refl. reflexivity.
  - intros Hne.
    destruct (decide (length keys ≠ length [types.Bool true])) as [_|Heq];
      [|exfalso; apply Heq; exact Hne].
    reflexivity.
Qed.

End mapPairs_compile.

Lemma mapPairs_compiles_witness :
  no_runtime_panic
    (mapPairsOp_Invoke
       (mkMapPairsOp
          [sample_compoundOp (bareword "k"); sample_compoundOp (bareword "l")]
          [sample_compoundOp (bareword "v");
           mkValuesOp (literalValues [types.Bool true]) 9 9]
          [1%Z; 6%Z] [5%Z; 9%Z])
       sample_frame).1.
Proof.
  destruct (mapPairs_compiles sample_compoundOp
              [MapPair.mk (bareword "k") (Some (bareword "v")) 1 5;
               MapPair.mk (bareword "l") None 6 9])
    as [op [Hop [_ [_ [_ [_ Hsafe]]]]]].
  injection Hop as <-. apply Hsafe. intros c fm0. exact I.
Defined.

Lemma mapPairs_valueless_witness :
  ∃ m, mapPairsOp_Invoke
         (mkMapPairsOp [sample_compoundOp (bareword "k")]
            [mkValuesOp (literalValues [types.Bool true]) 9 9]
            [6%Z] [9%Z])
         sample_frame
       = (Ok [types.Map m],
          mkFrame 9 9 (scope sample_frame) (store sample_frame))
       ∧ hashmap.Index m (types.String "k") = Some (types.Bool true).
Proof.
  exact (proj1 (mapPairs_valueless sample_compoundOp []
                  (MapPair.mk (bareword "k") None 6 9)
                  (mkMapPairsOp [sample_compoundOp (bareword "k")]
                     [mkValuesOp (literalValues [types.Bool true]) 9 9]
                     [6%Z] [9%Z])
                  sample_frame sample_frame
                  (mkFrame 0 0 (scope sample_frame) (store sample_frame))
                  [] [types.String "k"]
                  eq_refl eq_refl eq_refl (Forall_nil_2 _) eq_refl)
           (types.String "k") eq_refl).
Defined.

(** ** Output capture: what the two drains leave in the buffer *)

Lemma interleaving_prefix_r {A : Type} (new xs ys w : list A) :
  interleaving xs ys w → interleaving xs (new ++ ys) (new ++ w).
Proof.
  intros Hw. induction new as [|y new IH]; [exact Hw|].
  cbn [app]. constructor. exact IH.
Qed.

Lemma interleaving_length {A : Type} (xs ys w : list A) :
  interleaving xs ys w → length w = length xs + length ys.
Proof. induction 1; simpl; lia. Qed.

Lemma append_newline_nonempty (pre : string) :
  (pre ++ newline_string)%string ≠ "".
Proof. destruct pre; discriminate. Qed.

(** What one step of the byte drain does to the lines still to come. *)
Lemma ReadString_lines (s : string) (e : GoError) :
  ∃ line err r',
    ReadString (mkReader s e) newline = (line, err, r')
    ∧ types.String <$> drained_lines "" s
      = (if decide (line ≠ "")
         then [types.String (strings_TrimSuffix line newline_string)]
         else [])
        ++ (if is_nil err then types.String <$> drained_lines "" (pending r')
            else []).
Proof.
  destruct (string_split_byte newline s) as [Hno | [pre [rest [-> Hno]]]].
  - eexists _, _, _. split; [apply (ReadString_end s e Hno)|].
    cbn [is_nil]. rewrite app_nil_r.
    rewrite (drained_lines_end s "" Hno), append_nil_l.
    rewrite (strings_TrimSuffix_absent s Hno).
    destruct (decide (s ≠ "")); reflexivity.
  - eexists _, _, _. split; [apply (ReadString_newline pre rest e Hno)|].
    cbn [is_nil pending].
    rewrite decide_True by apply append_newline_nonempty.
    rewrite strings_TrimSuffix_newline.
    rewrite (drained_lines_newline pre rest "" Hno), append_nil_l.
    reflexivity.
Qed.

Lemma capture_step_sound (c c' : Capture) :
  capture_step c c' →
  ∃ new, captured c' = captured c ++ new
         ∧ ((∃ v, new = [v] ∧ ch c = v :: ch c'
                  ∧ remaining_lines c' = remaining_lines c)
            ∨ (ch c' = ch c
               ∧ remaining_lines c = new ++ remaining_lines c')).
Proof.
  intros Hstep. destruct Hstep as [v ch0 r done vs | ch0 r vs line err r' Hread].
  - exists [v]. split; [reflexivity|]. left. exists v.
    repeat split; reflexivity.
  - destruct r as [s e].
    destruct (ReadString_lines s e) as [line0 [err0 [r0 [Hread0 Hlines]]]].
    rewrite Hread0 in Hread. injection Hread as -> -> ->.
    exists (if decide (line ≠ "")
            then [types.String (strings_TrimSuffix line newline_string)]
            else []).
    cbn [captured ch]. split.
    + destruct (decide (line ≠ "")); [reflexivity|].
      rewrite app_nil_r. reflexivity.
    + right. split; [reflexivity|].
      unfold remaining_lines. cbn [bytesCollected pipeRead pending].
      rewrite Hlines. destruct (is_nil err); reflexivity.
Qed.

Lemma capture_run_sound (c c' : Capture) :
  rtc capture_step c c' →
  collected c' →
  ∃ w, captured c' = captured c ++ w
       ∧ interleaving (ch c) (remaining_lines c) w.
Proof.
  intros Hrun [Hch Hdone]. revert c Hrun.
  apply rtc_ind_l.
  - exists []. split; [rewrite app_nil_r; reflexivity|].
    unfold remaining_lines. rewrite Hch, Hdone. constructor.
  - intros c c1 Hstep _ [w [Hw Hint]].
    destruct (capture_step_sound c c1 Hstep)
      as [new [Hnew [[v [-> [Hc Hrem]]] | [Hc Hrem]]]].
    + exists (v :: w). split.
      * rewrite Hw, Hnew, <- app_assoc. reflexivity.
      * rewrite Hc, <- Hrem. constructor. exact Hint.
    + exists (new ++ w). split.
      * rewrite Hw, Hnew, <- app_assoc. reflexivity.
      * rewrite <- Hc, Hrem. apply interleaving_prefix_r. exact Hint.
Qed.

(** X22.  Whatever way the two drains of an output capture take turns,
    once both are done the buffer is an interleaving of the values sent
    on the channel and the lines of the byte stream: it holds exactly
    these, the values in the order sent and the lines in the order
    written, so its length is the number of values plus the number of
    lines; the order between a value and a line is not determined. *)
Theorem capture_interleaves (values : list Value) (r : Reader) (c' : Capture) :
  rtc capture_step (mkCapture values r false []) c' →
  collected c' →
  interleaving values (types.String <$> drained_lines "" (pending r))
    (captured c')
  ∧ length (captured c')
    = length values + length (drained_lines "" (pending r)).
Proof.
  intros Hrun Hdone.
  destruct (capture_run_sound _ _ Hrun Hdone) as [w [Hw Hint]].
  cbn [captured app] in Hw. rewrite Hw.
  split; [exact Hint|].
  rewrite (interleaving_length _ _ _ Hint). cbn [ch].
  unfold remaining_lines. cbn [bytesCollected pipeRead].
  rewrite length_fmap. reflexivity.
Qed.

Lemma bytesCb_step_progress (c : Capture) :
  bytesCollected c = false →
  ∃ c1 new,
    capture_step c c1
    ∧ ch c1 = ch c
    ∧ captured c1 = captured c ++ new
    ∧ remaining_lines c = new ++ remaining_lines c1
    ∧ ((new = [] ∧ bytesCollected c1 = true) ∨ ∃ v, new = [v]).
Proof.
  destruct c as [ch0 [s e] done vs]. cbn [bytesCollected]. intros ->.
  unfold remaining_lines. cbn [bytesCollected pipeRead pending ch captured].
  destruct (string_split_byte newline s) as [Hno | [pre [rest [-> Hno]]]].
  - pose proof (bytesCb_step ch0 _ vs _ _ _ (ReadString_end s e Hno)) as Hstep.
    cbn [is_nil negb] in Hstep.
    rewrite (strings_TrimSuffix_absent s Hno) in Hstep.
    rewrite (drained_lines_end s "" Hno), append_nil_l.
    destruct (decide (s ≠ "")).
    + exists (mkCapture ch0 (mkReader "" e) true (vs ++ [types.String s])),
        [types.String s].
      split; [exact Hstep|]. repeat (split; [reflexivity|]).
      right. eexists. reflexivity.
    + exists (mkCapture ch0 (mkReader "" e) true vs), [].
      split; [exact Hstep|]. split; [reflexivity|].
      split; [rewrite app_nil_r; reflexivity|].
      split; [reflexivity|]. left. split; reflexivity.
  - pose proof (bytesCb_step ch0 _ vs _ _ _ (ReadString_newline pre rest e Hno))
      as Hstep.
    cbn [is_nil negb] in Hstep.
    rewrite decide_True in Hstep by apply append_newline_nonempty.
    rewrite strings_TrimSuffix_newline in Hstep.
    rewrite (drained_lines_newline pre rest "" Hno), append_nil_l.
    exists (mkCapture ch0 (mkReader rest e) false (vs ++ [types.String pre])),
      [types.String pre].
    split; [exact Hstep|]. repeat (split; [reflexivity|]).
    right. eexists. reflexivity.
Qed.

Lemma capture_run_complete (xs ys w : list Value) :
  interleaving xs ys w →
  ∀ c, ch c = xs → remaining_lines c = ys →
       ∃ c', rtc capture_step c c' ∧ collected c'
             ∧ captured c' = captured c ++ w.
Proof.
  induction 1 as [|x xs ys w _ IH|y xs ys w _ IH]; intros c Hch Hrem.
  - destruct (bytesCollected c) eqn:Hdone.
    + exists c. split; [constructor|]. split; [split; assumption|].
      rewrite app_nil_r. reflexivity.
    + destruct (bytesCb_step_progress c Hdone)
        as [c1 [new [Hstep [Hc [Hcap [Hlines Hnew]]]]]].
      rewrite Hrem in Hlines.
      destruct Hnew as [[-> Hdone1] | [v ->]]; [|discriminate].
      exists c1. split; [apply rtc_once; exact Hstep|].
      split; [split; congruence | exact Hcap].
  - destruct c as [ch0 r done vs]. cbn [ch] in Hch. subst ch0.
    destruct (IH (mkCapture xs r done (vs ++ [x])) eq_refl Hrem)
      as [c' [Hrun [Hcol Hcap]]].
    exists c'. split; [|split; [exact Hcol|]].
    + eapply rtc_l; [apply valueCb_step | exact Hrun].
    + rewrite Hcap. cbn [captured]. rewrite <- app_assoc. reflexivity.
  - destruct (bytesCollected c) eqn:Hdone.
    { unfold remaining_lines in Hrem. rewrite Hdone in Hrem. discriminate. }
    destruct (bytesCb_step_progress c Hdone)
      as [c1 [new [Hstep [Hc [Hcap [Hlines Hnew]]]]]].
    rewrite Hrem in Hlines.
    destruct Hnew as [[-> Hdone1] | [v ->]].
    { unfold remaining_lines in Hlines. rewrite Hdone1 in Hlines.
      discriminate. }
    injection Hlines as <- Hys.
    destruct (IH c1 (eq_trans Hc Hch) (eq_sym Hys)) as [c' [Hrun [Hcol Hcap']]].
    exists c'. split; [|split; [exact Hcol|]].
    + eapply rtc_l; [exact Hstep | exact Hrun].
    + rewrite Hcap', Hcap, <- app_assoc. reflexivity.
Qed.

(** X23.  Every interleaving of the values sent on the channel with the
    lines of the byte stream is the buffer of some run of the two drains
    in which both finish: the capture always can complete, and nothing
    in the drains fixes the order between a value and a line. *)
Theorem capture_reaches_every_interleaving (values : list Value) (r : Reader)
    (w : list Value) :
  interleaving values (types.String <$> drained_lines "" (pending r)) w →
  ∃ c', rtc capture_step (mkCapture values r false []) c'
        ∧ collected c'
        ∧ captured c' = w.
Proof.
  intros Hint.
  exact (capture_run_complete _ _ _ Hint (mkCapture values r false [])
           eq_refl eq_refl).
Qed.

Lemma capture_interleaves_witness :
  interleaving [OK]
    (types.String <$> drained_lines "" ("a" ++ newline_string))
    [types.String "a"; OK]
  ∧ length [types.String "a"; OK]
    = length [OK] + length (drained_lines "" ("a" ++ newline_string)).
Proof.
  refine (capture_interleaves [OK] (mkReader ("a" ++ newline_string) io_EOF)
            (mkCapture [] (mkReader "" io_EOF) true [types.String "a"; OK])
            _ _).
  - refine (rtc_l _ _
              (mkCapture [OK] (mkReader "" io_EOF) false [types.String "a"])
              _ _ _).
    { exact (bytesCb_step [OK] (mkReader ("a" ++ newline_string) io_EOF) []
               _ _ _ eq_refl). }
    refine (rtc_l _ _
              (mkCapture [] (mkReader "" io_EOF) false [types.String "a"; OK])
              _ _ _).
    { exact (valueCb_step OK [] (mkReader "" io_EOF) false [types.String "a"]). }
    apply rtc_once.
    exact (bytesCb_step [] (mkReader "" io_EOF) [types.String "a"; OK]
             _ _ _ eq_refl).
  - split; reflexivity.
Defined.

Lemma capture_reaches_every_interleaving_witness :
  ∃ c', rtc capture_step
          (mkCapture [OK] (mkReader ("a" ++ newline_string) io_EOF) false [])
          c'
        ∧ collected c'
        ∧ captured c' = [OK; types.String "a"].
Proof.
  apply (capture_reaches_every_interleaving [OK]
           (mkReader ("a" ++ newline_string) io_EOF)
           [OK; types.String "a"]).
  exact (interleaving_l OK [] [types.String "a"] [types.String "a"]
           (interleaving_r (types.String "a") [] [] [] interleaving_nil)).
Defined.
